(** * langchain_compressa: embeddings and completion providers

    A shallow embedding of [langchain_compressa/embeddings.py] and
    [langchain_compressa/llms.py].

    - Python lists are [list]; subscripts go through [getitem], which
      wraps negative subscripts and raises [IndexError] out of range.
    - Python floats are the kernel's binary64 floats ([PrimFloat]); the
      operators [*], [+] never raise, [/] raises [ZeroDivisionError] on a
      zero divisor and [**] follows CPython's [float_pow] around the C
      library's [pow], which is a parameter ([Libm]).
    - Exceptions are the [Raise] branch of [result]; remote calls run in
      [M], which threads the list of requests issued so far. *)

From Stdlib Require Import ZArith List Floats Lia.
From stdpp Require Import base option list strings gmap.

Set Default Proof Using "Type".
Local Open Scope Z_scope.

(* ================================================================== *)
(** ** Python values, exceptions and builtins                          *)
(* ================================================================== *)

Module Py.

Inductive exn : Type :=
| IndexError
| ZeroDivisionError
| OverflowError
| TypeError
| AttributeError
| AssertionError
| KeyError
| ValueError (msg : string)
| ComplexPower.
(** [ComplexPower]: a negative float raised to the power 0.5 is a
    complex number in Python 3; the computation leaves [List[float]]
    there and the embedding stops. *)

Inductive result (A : Type) : Type :=
| Ok (a : A)
| Raise (e : exn).
Arguments Ok {A} a.
Arguments Raise {A} e.

Definition bind {A B} (m : result A) (k : A → result B) : result B :=
  match m with
  | Ok a => k a
  | Raise e => Raise e
  end.

Definition is_ok {A} (m : result A) : bool :=
  match m with Ok _ => true | Raise _ => false end.

#[global] Instance result_ret : MRet result := @Ok.
#[global] Instance result_bind : MBind result := λ A B k m, bind m k.
#[global] Instance result_fmap : FMap result :=
  λ A B f m, bind m (λ a, Ok (f a)).

(** A [for] loop that threads an accumulator and stops at the first
    exception. *)
Fixpoint foldM {A B} (f : B → A → result B) (l : list A) (b : B)
  : result B :=
  match l with
  | [] => Ok b
  | x :: l' => b' ← f b x; foldM f l' b'
  end.

(** A list comprehension whose body may raise. *)
Fixpoint forM {A B} (f : A → result B) (l : list A) : result (list B) :=
  match l with
  | [] => Ok []
  | x :: l' => y ← f x; ys ← forM f l'; Ok (y :: ys)
  end.

(** [len(l)] *)
Definition len {A} (l : list A) : Z := Z.of_nat (length l).

(** The position a subscript [i] denotes in a sequence of [n] items:
    negative subscripts count from the end. *)
Definition position (n : nat) (i : Z) : option nat :=
  let j := if i <? 0 then i + Z.of_nat n else i in
  if (0 <=? j) && (j <? Z.of_nat n) then Some (Z.to_nat j) else None.

(** [l[i]] *)
Definition getitem {A} (l : list A) (i : Z) : result A :=
  match position (length l) i ≫= (l !!.) with
  | Some x => Ok x
  | None => Raise IndexError
  end.

(** [range(n)] *)
Definition range (n : Z) : list Z :=
  Z.of_nat <$> seq 0 (Z.to_nat n).

(** [range(0, stop, step)] *)
Definition range_step (stop step : Z) : result (list Z) :=
  if step =? 0 then Raise (ValueError "range() arg 3 must not be zero")
  else if step <? 0 then Ok []
  else Ok ((λ q : nat, Z.of_nat q * step)
             <$> seq 0 (Z.to_nat ((stop + step - 1) / step))).

(** A slice bound [i] on a sequence of [n] items: negative bounds
    count from the end, and every bound is clamped to [0..n]. *)
Definition clamp (n i : Z) : Z :=
  if i <? 0 then Z.max (i + n) 0 else Z.min i n.

(** [l[lo:hi]] *)
Definition slice {A} (l : list A) (lo hi : Z) : list A :=
  let lo' := clamp (len l) lo in
  let hi' := clamp (len l) hi in
  take (Z.to_nat (hi' - lo')) (drop (Z.to_nat lo') l).

(** [zip(row, *rest)] given [cols = zip( *rest)]. *)
Fixpoint zip_cons {A} (row : list A) (cols : list (list A))
  : list (list A) :=
  match row, cols with
  | x :: row', c :: cols' => (x :: c) :: zip_cons row' cols'
  | _, _ => []
  end.

(** [zip( *rows)]: the columns of [rows], as many as the shortest row
    has items. *)
Fixpoint zip_star {A} (rows : list (list A)) : list (list A) :=
  match rows with
  | [] => []
  | [row] => (λ x, [x]) <$> row
  | row :: rest => zip_cons row (zip_star rest)
  end.

(** [sum(l)] over ints *)
Definition sum_int (l : list Z) : Z := foldl Z.add 0 l.

(** *** Floats *)

Local Open Scope float_scope.

(** An int operand of a float operator is converted first
    ([PyLong_AsDouble], round to nearest even).  Every int the code
    converts is a [len()], far below the overflow threshold. *)
Definition of_int (n : Z) : float :=
  SF2Prim (binary_normalize prec emax n 0 false).

(** [sum(l)] over floats: the running total starts at the int [0]. *)
Definition sum_float (l : list float) : float :=
  foldl PrimFloat.add (of_int 0) l.

(** [a / b] *)
Definition truediv (a b : float) : result float :=
  if b =? 0 then Raise ZeroDivisionError else Ok (a / b).

(** The C library's [pow], which the repository does not define: its
    result and the [errno] it leaves (0, [ERANGE], or another value). *)
Inductive errno : Type :=
| NoError
| ERANGE
| EDOM.

Class Libm : Type := { pow : float → float → float * errno }.

(** The call of [pow] that ends CPython's [float_pow]: [errno] is
    adjusted as [_Py_ADJUST_ERANGE1] does (an infinite result is a range
    error, an underflow to zero is none), and what is left of it is
    raised. *)
Definition libm_pow `{Libm} (iv iw : float) : result float :=
  let '(ix, e) := pow iv iw in
  let e := match e with
           | NoError => if is_infinity ix then ERANGE else NoError
           | ERANGE => if ix =? 0 then NoError else ERANGE
           | EDOM => EDOM
           end in
  match e with
  | NoError => Ok ix
  | ERANGE => Raise OverflowError
  | EDOM => Raise (ValueError "Numerical argument out of domain")
  end.

(** [iv ** 2], along the cases of CPython's [float_pow]. *)
Definition pow_2 `{Libm} (iv : float) : result float :=
  if is_nan iv then Ok iv
  else if is_infinity iv then Ok (abs iv)
  else if iv =? 0 then Ok 0
  else
    let iv := abs iv in
    if iv =? 1 then Ok 1
    else libm_pow iv 2.

(** [iv ** 0.5], along the same cases; a negative [iv] leaves the
    floats. *)
Definition pow_half `{Libm} (iv : float) : result float :=
  if is_nan iv then Ok iv
  else if is_infinity iv then Ok (abs iv)
  else if iv =? 0 then Ok 0
  else if iv <? 0 then Raise ComplexPower
  else if iv =? 1 then Ok 1
  else libm_pow iv 0.5.

End Py.

Import Py.

(* ================================================================== *)
(** ** embeddings.py                                                   *)
(* ================================================================== *)

(** One entry of [tokens]: a list of token ids (tiktoken) or a decoded
    string (transformers). *)
Inductive chunk : Type :=
| ChunkIds (ids : list Z)
| ChunkText (text : string).

(** Strings are held UTF-8 encoded; [len()] of a [str] counts its code
    points, the bytes that do not continue a code point. *)
Definition is_continuation (a : Ascii.ascii) : bool :=
  let b := Ascii.nat_of_ascii a in
  (128 <=? b)%nat && (b <? 192)%nat.

Fixpoint code_points (s : string) : nat :=
  match s with
  | EmptyString => 0
  | String a s' =>
      ((if is_continuation a then 0 else 1) + code_points s')%nat
  end.

(** [len(tokens[i])] *)
Definition chunk_len (c : chunk) : Z :=
  match c with
  | ChunkIds ids => len ids
  | ChunkText text => Z.of_nat (code_points text)
  end.

Abbreviation embedding := (list float).

Section Aggregation.

Context {libm : Libm}.

Variable num_texts : Z.
Variable tokens : list chunk.
Variable batched_embeddings : list embedding.
Variable indices : list Z.
Variable skip_empty : bool.

(** The two tables the first loop fills. *)
Definition tables : Type := list (list embedding) * list (list Z).

(** [table[k].append(x)] *)
Definition append_at {A} (table : list (list A)) (k : Z) (x : A)
  : result (list (list A)) :=
  match position (length table) k with
  | Some p =>
      match table !! p with
      | Some row => Ok (<[p := row ++ [x]]> table)
      | None => Raise IndexError
      end
  | None => Raise IndexError
  end.

(** Body of [for i in range(len(indices))]. *)
Definition scatter_step (st : tables) (i : Z) : result tables :=
  let '(results, num_tokens_in_batch) := st in
  skip ← (if skip_empty
          then e ← getitem batched_embeddings i;
               Ok (bool_decide (length e = 1%nat))
          else Ok false);
  if skip : bool then Ok st
  else
    k ← getitem indices i;
    _ ← getitem results k;
    e ← getitem batched_embeddings i;
    results' ← append_at results k e;
    k' ← getitem indices i;
    _ ← getitem num_tokens_in_batch k';
    t ← getitem tokens i;
    num_tokens_in_batch' ← append_at num_tokens_in_batch k' (chunk_len t);
    Ok (results', num_tokens_in_batch').

Definition scatter : result tables :=
  let n := Z.to_nat num_texts in
  foldM scatter_step (range (len indices))
        (replicate n [], replicate n []).

(** The weighted average of the [else] branch. *)
Definition weighted_average (_result : list embedding) (weights : list Z)
  : result (list float) :=
  let total_weight := sum_int weights in
  forM (λ embedding : list float,
          truediv
            (sum_float
               ((λ '(val, weight), (val * of_int weight)%float)
                  <$> zip embedding weights))
            (of_int total_weight))
       (zip_star _result).

(** [[val / magnitude for val in average]] with
    [magnitude = sum(val**2 for val in average) ** 0.5]. *)
Definition normalize (average : list float) : result (list float) :=
  squares ← forM pow_2 average;
  magnitude ← pow_half (sum_float squares);
  forM (λ val, truediv val magnitude) average.

(** What the second loop appends for one text. *)
Definition combine (_result : list embedding) (weights : list Z)
  : result (option embedding) :=
  match _result with
  | [] => Ok None
  | [e] => Ok (Some e)
  | _ =>
      average ← weighted_average _result weights;
      v ← normalize average;
      Ok (Some v)
  end.

(** Body of [for i in range(num_texts)]. *)
Definition gather_step (st : tables) (i : Z)
  : result (option embedding) :=
  _result ← getitem st.1 i;
  match _result with
  | [] | [_] => combine _result []
  | _ => weights ← getitem st.2 i; combine _result weights
  end.

Definition _process_batched_chunked_embeddings
  : result (list (option embedding)) :=
  st ← scatter;
  forM (gather_step st) (range num_texts).

End Aggregation.


(** *** The chunks of one text, as a description of the first loop *)

Section Members.

Variable num_texts : Z.
Variable tokens : list chunk.
Variable batched_embeddings : list embedding.
Variable indices : list Z.
Variable skip_empty : bool.

(** The [continue] of the first loop. *)
Definition skipped (e : embedding) : bool :=
  skip_empty && bool_decide (length e = 1%nat).

Definition emb_at (j : nat) : embedding :=
  default [] (batched_embeddings !! j).

Definition len_at (j : nat) : Z :=
  default 0 (chunk_len <$> tokens !! j).

(** Chunk [j] is filed under text [p]: its origin index denotes
    position [p] of the tables and the chunk is not skipped. *)
Definition filed (p j : nat) : Prop :=
  indices !! j ≫= position (Z.to_nat num_texts) = Some p
  ∧ skipped (emb_at j) = false.

#[global] Instance filed_dec p j : Decision (filed p j).
Proof. unfold filed; apply _. Defined.

(** The chunks filed under text [p] among the first [m], in order. *)
Definition members_upto (m p : nat) : list nat :=
  filter (filed p) (seq 0 m).

Definition members (p : nat) : list nat :=
  members_upto (length indices) p.

Definition rows (p : nat) : list embedding := emb_at <$> members p.
Definition weights (p : nat) : list Z := len_at <$> members p.

(** The chunks that text [p] contributes: embedding and reported
    token length of each. *)
Definition chunks (p : nat) : list (embedding * Z) :=
  (λ j, (emb_at j, len_at j)) <$> members p.

(** The tables after the first [m] chunks. *)
Definition tables_upto (m : nat) : tables :=
  ((λ p, emb_at <$> members_upto m p) <$> seq 0 (Z.to_nat num_texts),
   (λ p, len_at <$> members_upto m p) <$> seq 0 (Z.to_nat num_texts)).

(** Iteration [j] of the first loop finds every item it subscripts. *)
Definition step_ok (j : nat) : Prop :=
  match batched_embeddings !! j with
  | None => False
  | Some e =>
      skipped e = true
      ∨ (is_Some (indices !! j ≫= position (Z.to_nat num_texts))
         ∧ is_Some (tokens !! j))
  end.

#[global] Instance step_ok_dec j : Decision (step_ok j).
Proof. unfold step_ok; destruct (batched_embeddings !! j); apply _. Defined.

Definition well_formed : Prop :=
  Forall step_ok (seq 0 (length indices)).

#[global] Instance well_formed_dec : Decision well_formed.
Proof. unfold well_formed; apply _. Defined.

End Members.

(** The components that all of [rows] have. *)
Fixpoint dim (rows : list embedding) : nat :=
  match rows with
  | [] => 0
  | [r] => length r
  | r :: rest => Nat.min (length r) (dim rest)
  end.

(** *** The aggregation as the specification words it *)

Section SpecAggregate.

Context {libm : Libm}.

Local Open Scope float_scope.

(** The chunks of one text: embedding and token length. *)
Variable chunks : list (embedding * Z).

(** Component [d] of a chunk embedding. *)
Definition component (d : nat) (e : embedding) : float := nth d e 0.

(** "the token-count-weighted sum over matching chunks of
    embedding[chunk][d] * tokenLength[chunk]" *)
Definition spec_weighted_sum (d : nat) : float :=
  sum_float ((λ c, component d c.1 * of_int c.2) <$> chunks).

(** "divide by the sum of tokenLengths" *)
Definition spec_average (d : nat) : result float :=
  truediv (spec_weighted_sum d) (of_int (sum_int (chunks.*2))).

(** "the Euclidean norm of the vector" *)
Definition spec_norm (v : list float) : result float :=
  squares ← forM pow_2 v; pow_half (sum_float squares).

(** "then L2-normalize the resulting vector (divide every component by
    the Euclidean norm of the vector)" *)
Definition spec_l2_normalize (v : list float) : result (list float) :=
  norm ← spec_norm v; forM (λ x, truediv x norm) v.

(** The number of output dimensions: what every chunk embedding has. *)
Definition common_dim : nat := dim (chunks.*1).

Definition spec_aggregate : result embedding :=
  average ← forM spec_average (seq 0 common_dim);
  spec_l2_normalize average.

End SpecAggregate.

(** *** The remote endpoint *)

(** Remote calls append the request to a log; the endpoint answers from
    the requests it has seen so far and the new one. *)
Definition M (Req A : Type) : Type := list Req → result A * list Req.

Definition ret {Req A} (a : A) : M Req A := λ log, (Ok a, log).

Definition bindM {Req A B} (m : M Req A) (k : A → M Req B) : M Req B :=
  λ log,
    match m log with
    | (Ok a, log') => k a log'
    | (Raise e, log') => (Raise e, log')
    end.

Definition lift {Req A} (r : result A) : M Req A := λ log, (r, log).

Definition create {Req Resp} (client : list Req → Req → result Resp)
    (request : Req) : M Req Resp :=
  λ log, (client log request, log ++ [request]).

#[global] Instance M_ret {Req} : MRet (M Req) := @ret Req.
#[global] Instance M_bind {Req} : MBind (M Req) := λ A B k m, bindM m k.

Fixpoint foldS {Req A B} (f : B → A → M Req B) (l : list A) (b : B)
  : M Req B :=
  match l with
  | [] => ret b
  | x :: l' => b' ← f b x; foldS f l' b'
  end.

(** The [input=] argument of the embeddings endpoint. *)
Inductive embed_input : Type :=
| InputBatch (chunks : list chunk)
| InputText (text : string).

#[global] Instance chunk_eq_dec : EqDecision chunk.
Proof. solve_decision. Defined.
#[global] Instance embed_input_eq_dec : EqDecision embed_input.
Proof. solve_decision. Defined.

(** [response["data"]], each item reduced to its ["embedding"]. *)
Record embed_response : Type := { data : list embedding }.

Inductive special : Type :=
| SpecialAll
| SpecialSet (names : list string).

Record CompressaEmbeddings : Type := {
  model : string;
  chunk_size : Z;
  tiktoken_enabled : bool;
  tiktoken_model_name : option string;
  show_progress_bar : bool;
  allowed_special : option special;
  disallowed_special : option special;
  skip_empty : bool;
  embedding_ctx_length : Z;
  check_embedding_ctx_length : bool
}.

(** The tokenizer packages and the two clients, which the repository
    only calls. *)
Record environment : Type := {
  encoding : Type;
  encoding_for_model : string → option encoding;
  get_encoding : string → result encoding;
  encode : encoding → option special → option special → string
           → result (list Z);
  encode_ordinary : encoding → string → list Z;
  transformers_installed : bool;
  tokenizer : Type;
  from_pretrained : string → result tokenizer;
  tokenizer_encode : tokenizer → string → list Z;
  tokenizer_decode : tokenizer → list Z → string;
  client : list embed_input → embed_input → result embed_response;
  async_client : list embed_input → embed_input → result embed_response
}.

(** The slices of each text in turn, each with the ordinal of its text;
    [s] is the ordinal of the first text. *)
Fixpoint plan (s : nat) (pss : list (list (list Z)))
  : list (list Z * nat) :=
  match pss with
  | [] => []
  | ps :: rest => ((λ piece, (piece, s)) <$> ps) ++ plan (S s) rest
  end.

(** The requests with an empty-string input among [requests]. *)
Definition empty_string_calls (requests : list embed_input) : nat :=
  length (filter (λ r, r = InputText "") requests).

Section Embeddings.

Context {libm : Libm}.

Variable env : environment.
Variable self : CompressaEmbeddings.

(** [self.chunk_size], where a parameter has the name of the field. *)
Local Abbreviation self_chunk_size := (chunk_size self).

(** [a or b] on strings and ints. *)
Definition or_string (a : option string) (b : string) : string :=
  match a with
  | Some s => if decide (s = "") then b else s
  | None => b
  end.

Definition or_int (a : option Z) (b : Z) : Z :=
  match a with
  | Some z => if z =? 0 then b else z
  | None => b
  end.

(** The inner [for j in range(0, len(token), embedding_ctx_length)]. *)
Definition split_token (wrap : list Z → chunk) (i : Z) (token : list Z)
    (acc : list chunk * list Z) : result (list chunk * list Z) :=
  js ← range_step (len token) (embedding_ctx_length self);
  Ok (foldl (λ '(tokens, indices) j,
               (tokens
                  ++ [wrap (slice token j (j + embedding_ctx_length self))],
                indices ++ [i]))
            acc js).

(** [enumerate(texts)] *)
Definition enumerate {A} (l : list A) : list (Z * A) :=
  zip (range (len l)) l.

Definition _tokenize (texts : list string) (chunk_size : Z)
  : result (list Z * list chunk * list Z) :=
  let model_name := or_string (tiktoken_model_name self) (model self) in
  '(tokens, indices) ←
    (if negb (tiktoken_enabled self) then
       if negb (transformers_installed env)
       then Raise (ValueError "Could not import transformers python package.")
       else
         tokenizer ← from_pretrained env model_name;
         foldM (λ acc '(i, text),
                  let tokenized := tokenizer_encode env tokenizer text in
                  split_token
                    (λ token_chunk,
                       ChunkText (tokenizer_decode env tokenizer token_chunk))
                    i tokenized acc)
               (enumerate texts) ([], [])
     else
       encoding ← match encoding_for_model env model_name with
                  | Some enc => Ok enc
                  | None => get_encoding env "Salesforce/SFR-Embedding-Mistral"
                  end;
       foldM (λ acc '(i, text),
                token ←
                  match allowed_special self, disallowed_special self with
                  | None, None => Ok (encode_ordinary env encoding text)
                  | a, d => encode env encoding a d text
                  end;
                split_token ChunkIds i token acc)
             (enumerate texts) ([], []));
  _iter ← range_step (len tokens) chunk_size;
  Ok (_iter, tokens, indices).

(** What [_tokenize] sets up before its loop over the texts: how one
    text is encoded and how a slice of its tokens is stored. *)
Definition text_encoder
  : result ((string → result (list Z)) * (list Z → chunk)) :=
  let model_name := or_string (tiktoken_model_name self) (model self) in
  if negb (tiktoken_enabled self) then
    if negb (transformers_installed env)
    then Raise (ValueError "Could not import transformers python package.")
    else
      tokenizer ← from_pretrained env model_name;
      Ok (λ text, Ok (tokenizer_encode env tokenizer text),
          λ token_chunk,
            ChunkText (tokenizer_decode env tokenizer token_chunk))
  else
    encoding ← match encoding_for_model env model_name with
               | Some enc => Ok enc
               | None => get_encoding env "Salesforce/SFR-Embedding-Mistral"
               end;
    Ok (λ text,
          match allowed_special self, disallowed_special self with
          | None, None => Ok (encode_ordinary env encoding text)
          | a, d => encode env encoding a d text
          end,
        ChunkIds).

(** The token sequence of one text. *)
Definition token_sequence (text : string) : result (list Z) :=
  '(encode_, _) ← text_encoder; encode_ text.

(** The slices the inner loop takes from one token sequence. *)
Definition pieces (token : list Z) : result (list (list Z)) :=
  js ← range_step (len token) (embedding_ctx_length self);
  Ok ((λ j, slice token j (j + embedding_ctx_length self))
        <$> (js : list Z)).

(** The batch loop: one request per window of [_chunk_size] chunks. *)
Definition fetch (create_ : embed_input → M embed_input embed_response)
    (tokens : list chunk) (_chunk_size : Z) (_iter : list Z)
  : M embed_input (list embedding) :=
  foldS (λ batched_embeddings i,
           response ← create_ (InputBatch (slice tokens i (i + _chunk_size)));
           mret (batched_embeddings ++ data response))
        _iter [].

(** The closure [empty_embedding] with its one-slot cache. *)
Definition empty_embedding
    (create_ : embed_input → M embed_input embed_response)
    (_cached_empty_embedding : option embedding)
  : M embed_input (embedding * option embedding) :=
  match _cached_empty_embedding with
  | Some e => mret (e, Some e)
  | None =>
      average_embedded ← create_ (InputText "");
      e ← lift (getitem (data average_embedded) 0);
      mret (e, Some e)
  end.

(** [[e if e is not None else empty_embedding() for e in embeddings]] *)
Fixpoint fill_empty (create_ : embed_input → M embed_input embed_response)
    (embeddings : list (option embedding))
    (_cached_empty_embedding : option embedding)
  : M embed_input (list embedding) :=
  match embeddings with
  | [] => mret []
  | Some e :: rest =>
      out ← fill_empty create_ rest _cached_empty_embedding;
      mret (e :: out)
  | None :: rest =>
      '(e, cache) ← empty_embedding create_ _cached_empty_embedding;
      out ← fill_empty create_ rest cache;
      mret (e :: out)
  end.

(** Lines 307-323: aggregation followed by the substitution of the
    empty-string embedding. *)
Definition aggregate (create_ : embed_input → M embed_input embed_response)
    (num_texts : Z) (tokens : list chunk)
    (batched_embeddings : list embedding) (indices : list Z)
  : M embed_input (list embedding) :=
  embeddings ← lift (_process_batched_chunked_embeddings
                       num_texts tokens batched_embeddings indices
                       (skip_empty self));
  fill_empty create_ embeddings None.

Definition _get_len_safe_embeddings (texts : list string)
    (chunk_size : option Z) : M embed_input (list embedding) :=
  let _chunk_size := or_int chunk_size self_chunk_size in
  '(_iter, tokens, indices) ← lift (_tokenize texts _chunk_size);
  batched_embeddings ← fetch (create (client env)) tokens _chunk_size _iter;
  aggregate (create (client env)) (len texts) tokens batched_embeddings
            indices.

Definition _aget_len_safe_embeddings (texts : list string)
    (chunk_size : option Z) : M embed_input (list embedding) :=
  let _chunk_size := or_int chunk_size self_chunk_size in
  '(_iter, tokens, indices) ← lift (_tokenize texts _chunk_size);
  let _chunk_size := or_int chunk_size self_chunk_size in
  _iter' ← lift (range_step (len tokens) _chunk_size);
  batched_embeddings ←
    fetch (create (async_client env)) tokens _chunk_size _iter';
  aggregate (create (async_client env)) (len texts) tokens
            batched_embeddings indices.

(** The loop of [embed_documents] when the length check is off. *)
Definition embed_unchecked
    (create_ : embed_input → M embed_input embed_response)
    (texts : list string) : M embed_input (list embedding) :=
  foldS (λ embeddings text,
           response ← create_ (InputText text);
           mret (embeddings ++ data response))
        texts [].

Definition embed_documents (texts : list string)
  : M embed_input (list embedding) :=
  if negb (check_embedding_ctx_length self)
  then embed_unchecked (create (client env)) texts
  else _get_len_safe_embeddings texts None.

Definition embed_query (text : string) : M embed_input embedding :=
  embeddings ← embed_documents [text];
  lift (getitem embeddings 0).

Definition aembed_documents (texts : list string)
  : M embed_input (list embedding) :=
  if negb (check_embedding_ctx_length self)
  then embed_unchecked (create (async_client env)) texts
  else _aget_len_safe_embeddings texts None.

Definition aembed_query (text : string) : M embed_input embedding :=
  embeddings ← aembed_documents [text];
  lift (getitem embeddings 0).

End Embeddings.

(* ================================================================== *)
(** ** llms.py                                                         *)
(* ================================================================== *)

Module Llms.

(** A value of a keyword-argument dict. *)
Inductive value : Type :=
| VNone
| VBool (b : bool)
| VInt (z : Z)
| VFloat (f : float)
| VStr (s : string)
| VStrs (l : list string)
| VBias (d : list (string * float)).

Abbreviation kwargs := (gmap string value).

Record choice : Type := {
  text : string;
  finish_reason : option string;
  logprobs : option string
}.

(** A completion response after [model_dump()]: [error] and [choices]
    may be null. *)
Record response : Type := {
  error : option string;
  choices : option (list choice);
  usage : option (gmap string Z);
  system_fingerprint : option string
}.

Record stream_response : Type := { stream_choices : list choice }.

Record GenerationChunk : Type := {
  chunk_text : string;
  generation_info : option (option string * option string)
}.

Record Generation : Type := {
  gen_text : string;
  gen_info : option string * option string
}.

Record LLMResult : Type := {
  generations : list (list Generation);
  token_usage : gmap string Z;
  llm_model_name : string;
  llm_system_fingerprint : option string
}.

(** What [client.create] is called with. *)
Inductive request : Type :=
| Create (prompt : list string) (params : kwargs)
| CreateStream (prompt : string) (params : kwargs).

Record BaseCompressaLLM : Type := {
  model_name : string;
  temperature : float;
  max_tokens : Z;
  top_p : float;
  frequency_penalty : float;
  presence_penalty : float;
  n : Z;
  best_of : Z;
  model_kwargs : kwargs;
  compressa_api_key : option string;
  compressa_api_base : option string;
  batch_size : Z;
  logit_bias : option (list (string * float));
  streaming : bool
}.

(** The process environment, the two clients and [GenerationChunk]'s
    [+], none of which the repository defines. *)
Record environment : Type := {
  environ : gmap string string;
  client : list request → request → result response;
  client_stream : list request → request → result (list stream_response);
  async_client : list request → request → result response;
  async_client_stream
    : list request → request → result (list stream_response);
  chunk_add : GenerationChunk → GenerationChunk → GenerationChunk
}.

(** [_update_token_usage]: the keys are visited in some order; the
    updates of distinct keys commute. *)
Definition _update_token_usage (keys : list string) (resp : response)
    (token_usage : gmap string Z) : result (gmap string Z) :=
  match usage resp with
  | None => Raise TypeError
  | Some u =>
      let _keys_to_use := filter (λ k, is_Some (u !! k)) keys in
      Ok (foldl (λ tu _key,
                   match tu !! _key with
                   | None => <[_key := default 0 (u !! _key)]> tu
                   | Some v => <[_key := v + default 0 (u !! _key)]> tu
                   end)
                token_usage _keys_to_use)
  end.

Definition _stream_response_to_generation_chunk (r : stream_response)
  : GenerationChunk :=
  match stream_choices r with
  | [] => {| chunk_text := ""; generation_info := None |}
  | c :: _ =>
      {| chunk_text := text c;
         generation_info := Some (finish_reason c, logprobs c) |}
  end.

(** Truth value of [response.get("error")]. *)
Definition truthy (e : option string) : bool :=
  match e with
  | Some s => negb (bool_decide (s = ""))
  | None => false
  end.

(** [v == k] for an int [k]. *)
Definition eq_int (v : value) (k : Z) : bool :=
  match v with
  | VInt z => z =? k
  | VFloat f => PrimFloat.eqb f (of_int k)
  | VBool b => (if b then 1 else 0) =? k
  | _ => false
  end.

Section Methods.

Variable env : environment.
Variable self : BaseCompressaLLM.

(** The three checks that open [validate_environment], then the
    credential lookup of [get_from_dict_or_env]. *)
Definition validate_environment : result BaseCompressaLLM :=
  if n self <? 1 then Raise (ValueError "n must be at least 1.")
  else if streaming self && (1 <? n self)
  then Raise (ValueError "Cannot stream results when n > 1.")
  else if streaming self && (1 <? best_of self)
  then Raise (ValueError "Cannot stream results when best_of > 1.")
  else
    key ← (match compressa_api_key self with
          | Some k => if decide (k = "") then
                        match environ env !! "COMPRESSA_API_KEY" with
                        | Some k' => if decide (k' = "")
                                     then Raise (ValueError "Did not find compressa_api_key")
                                     else Ok k'
                        | None => Raise (ValueError "Did not find compressa_api_key")
                        end
                      else Ok k
          | None =>
              match environ env !! "COMPRESSA_API_KEY" with
              | Some k' => if decide (k' = "")
                           then Raise (ValueError "Did not find compressa_api_key")
                           else Ok k'
              | None => Raise (ValueError "Did not find compressa_api_key")
              end
          end : result string);
    Ok {| model_name := model_name self;
          temperature := temperature self;
          max_tokens := max_tokens self;
          top_p := top_p self;
          frequency_penalty := frequency_penalty self;
          presence_penalty := presence_penalty self;
          n := n self;
          best_of := best_of self;
          model_kwargs := model_kwargs self;
          compressa_api_key := Some key;
          compressa_api_base :=
            match compressa_api_base self with
            | Some b => if decide (b = "")
                        then environ env !! "COMPRESSA_API_BASE"
                        else Some b
            | None => environ env !! "COMPRESSA_API_BASE"
            end;
          batch_size := batch_size self;
          logit_bias := logit_bias self;
          streaming := streaming self |}.

(** [{**normal_params, **self.model_kwargs}] *)
Definition _default_params : kwargs :=
  model_kwargs self
  ∪ <["best_of" := VInt (best_of self)]>
      (<["max_tokens" := VInt (max_tokens self)]>
         (<["logit_bias" := match logit_bias self with
                            | Some d => VBias d
                            | None => VNone
                            end]>
            (<["n" := VInt (n self)]>
               (<["presence_penalty" := VFloat (presence_penalty self)]>
                  (<["frequency_penalty" := VFloat (frequency_penalty self)]>
                     (<["top_p" := VFloat (top_p self)]>
                        {["temperature" := VFloat (temperature self)]})))))).

(** [CompressaLLM._invocation_params] *)
Definition _invocation_params : kwargs :=
  _default_params ∪ {["model" := VStr (model_name self)]}.

(** [get_sub_prompts] updates [params] in place: the updated dict is
    returned along with the sub-prompts.  [max_tokens_for_prompt] is
    defined neither here nor in the base class. *)
Definition get_sub_prompts (params : kwargs) (prompts : list string)
    (stop : option (list string))
  : result (kwargs * list (list string)) :=
  params ← (match stop with
            | Some s =>
                if decide (is_Some (params !! "stop"))
                then Raise (ValueError "`stop` found in both the input and default params.")
                else Ok (<["stop" := VStrs s]> params)
            | None => Ok params
            end : result kwargs);
  max_tokens ← (match params !! "max_tokens" with
                | Some v => Ok v
                | None => Raise KeyError
                end : result value);
  params ← ((if eq_int max_tokens (-1) then
               if negb (len prompts =? 1)
               then Raise (ValueError "max_tokens set to -1 not supported for multiple inputs.")
               else Raise AttributeError
             else Ok params) : result kwargs);
  starts ← range_step (len prompts) (batch_size self);
  Ok (params,
      (λ i, slice prompts i (i + batch_size self)) <$> (starts : list Z)).

Definition create_llm_result (choices : list choice)
    (prompts : list string) (params : kwargs)
    (token_usage : gmap string Z) (system_fingerprint : option string)
  : result LLMResult :=
  let n := default (VInt (n self)) (params !! "n") in
  generations ←
    forM (λ i,
            k ← (match n with
                 | VInt z => Ok z
                 | VBool b => Ok (if b then 1 else 0)
                 | _ => Raise TypeError
                 end : result Z);
            Ok ((λ c, {| gen_text := text c;
                         gen_info := (finish_reason c, logprobs c) |})
                  <$> slice choices (i * k) ((i + 1) * k)))
         (range (len prompts));
  Ok {| generations := generations;
        token_usage := token_usage;
        llm_model_name := model_name self;
        llm_system_fingerprint :=
          match system_fingerprint with
          | Some s => if decide (s = "") then None else Some s
          | None => None
          end |}.

(** [_stream] and [_astream], with the stream read to its end. *)
Definition stream_with
    (create_ : request → M request (list stream_response))
    (prompt : string) (stop : option (list string)) (kw : kwargs)
  : M request (list GenerationChunk) :=
  let params := <["stream" := VBool true]> (kw ∪ _invocation_params) in
  '(params, _) ← lift (get_sub_prompts params [prompt] stop);
  stream ← create_ (CreateStream prompt params);
  mret (_stream_response_to_generation_chunk <$> stream).

Definition _stream := stream_with (create (client_stream env)).
Definition _astream := stream_with (create (async_client_stream env)).

(** The streaming branch of both generate loops. *)
Definition stream_choice
    (stream : string → option (list string) → kwargs
              → M request (list GenerationChunk))
    (_prompts : list string) (stop : option (list string)) (kw : kwargs)
  : M request choice :=
  if 1 <? len _prompts
  then lift (Raise (ValueError "Cannot stream results with multiple prompts."))
  else
    prompt ← lift (getitem _prompts 0);
    chunks ← stream prompt stop kw;
    match chunks with
    | [] => lift (Raise AssertionError)
    | chunk :: rest =>
        let generation := foldl (chunk_add env) chunk rest in
        mret {| text := chunk_text generation;
                finish_reason :=
                  generation_info generation ≫= fst;
                logprobs :=
                  generation_info generation ≫= snd |}
    end.

Definition _keys : list string :=
  ["completion_tokens"; "prompt_tokens"; "total_tokens"].

Definition _generate (prompts : list string)
    (stop : option (list string)) (kw : kwargs) : M request LLMResult :=
  let params := kw ∪ _invocation_params in
  '(params, sub_prompts) ← lift (get_sub_prompts params prompts stop);
  '(choices, token_usage, system_fingerprint) ←
    foldS (λ '(choices, token_usage, system_fingerprint) _prompts,
             if streaming self then
               c ← stream_choice _stream _prompts stop kw;
               mret (choices ++ [c], token_usage, system_fingerprint)
             else
               response ← create (client env) (Create _prompts params);
               if truthy (error response)
               then lift (Raise (ValueError (default "" (error response))))
               else
                 cs ← lift (match Llms.choices response with
                            | Some cs => Ok cs
                            | None => Raise TypeError
                            end);
                 token_usage' ←
                   lift (_update_token_usage _keys response token_usage);
                 mret (choices ++ cs, token_usage',
                       match system_fingerprint with
                       | Some s => if decide (s = "")
                                   then Llms.system_fingerprint response
                                   else Some s
                       | None => Llms.system_fingerprint response
                       end))
          sub_prompts ([], ∅, None);
  lift (create_llm_result choices prompts params token_usage
                          system_fingerprint).

Definition _agenerate (prompts : list string)
    (stop : option (list string)) (kw : kwargs) : M request LLMResult :=
  let params := kw ∪ _invocation_params in
  '(params, sub_prompts) ← lift (get_sub_prompts params prompts stop);
  '(choices, token_usage) ←
    foldS (λ '(choices, token_usage) _prompts,
             if streaming self then
               c ← stream_choice _astream _prompts stop kw;
               mret (choices ++ [c], token_usage)
             else
               response ←
                 create (async_client env) (Create _prompts params);
               cs ← lift (match Llms.choices response with
                          | Some cs => Ok cs
                          | None => Raise TypeError
                          end);
               token_usage' ←
                 lift (_update_token_usage _keys response token_usage);
               mret (choices ++ cs, token_usage'))
          sub_prompts ([], ∅);
  lift (create_llm_result choices prompts params token_usage None).

End Methods.

End Llms.

(* ================================================================== *)
(** ** Sample configurations                                           *)
(* ================================================================== *)

Module Samples.

(** A tokenizer with one token per character. *)
Fixpoint codes (s : string) : list Z :=
  match s with
  | EmptyString => []
  | String a s' => Z.of_nat (Ascii.nat_of_ascii a) :: codes s'
  end.

(** An endpoint that answers each chunk of a batch with [each] and a
    single text with [alone]. *)
Definition endpoint (each alone : embedding) (log : list embed_input)
    (request : embed_input) : result embed_response :=
  match request with
  | InputBatch chunks => Ok {| data := (λ _, each) <$> chunks |}
  | InputText _ => Ok {| data := [alone] |}
  end.

(** An endpoint that answers a single text with the two embeddings
    [first] and [second]. *)
Definition endpoint_pair (first second : embedding)
    (log : list embed_input) (request : embed_input)
  : result embed_response :=
  Ok {| data := [first; second] |}.

Definition sample_env_with
    (cl acl : list embed_input → embed_input → result embed_response)
  : environment :=
  {| encoding := unit;
     encoding_for_model := λ _, Some tt;
     get_encoding := λ _, Ok tt;
     encode := λ _ _ _ text, Ok (codes text);
     encode_ordinary := λ _ text, codes text;
     transformers_installed := false;
     tokenizer := unit;
     from_pretrained := λ _, Ok tt;
     tokenizer_encode := λ _ text, codes text;
     tokenizer_decode := λ _ _, EmptyString;
     client := cl;
     async_client := acl |}.

Definition sample_env : environment :=
  sample_env_with (endpoint [1; 0]%float [0; 1]%float)
                  (endpoint [1; 0]%float [0; 1]%float).

(** The asynchronous client answers otherwise than the synchronous
    one. *)
Definition sample_env_async : environment :=
  sample_env_with (endpoint [1; 0]%float [0; 1]%float)
                  (endpoint [0; 1]%float [1; 0]%float).

(** Both clients answer a text with two embeddings. *)
Definition sample_env_pair : environment :=
  sample_env_with (endpoint_pair [1; 0]%float [0; 1]%float)
                  (endpoint_pair [0; 1]%float [1; 0]%float).

(** The defaults of the class, with the context length [ctx]. *)
Definition sample_embeddings (ctx : Z) (check : bool)
  : CompressaEmbeddings :=
  {| model := "/app/resources/models/models/Salesforce_SFR-Embedding-Mistral";
     chunk_size := 1000;
     tiktoken_enabled := true;
     tiktoken_model_name := Some "Salesforce/SFR-Embedding-Mistral";
     show_progress_bar := false;
     allowed_special := None;
     disallowed_special := None;
     skip_empty := false;
     embedding_ctx_length := ctx;
     check_embedding_ctx_length := check |}.

(** A [pow] that is correctly rounded at the two exponents the code
    uses, 2 and 0.5, and leaves no [errno]. *)
Definition sample_libm : Libm :=
  {| pow := λ x y, (if (y =? 0.5)%float then sqrt x else (x * x)%float,
                    NoError) |}.

(** Three texts, the second without tokens, the third of four tokens,
    chunked at three tokens, and an embedding for each chunk. *)
Definition sample_texts : list string := ["a"; ""; "bcde"].

Definition sample_tokens : list chunk :=
  [ChunkIds [97]; ChunkIds [98; 99; 100]; ChunkIds [101]].

Definition sample_indices : list Z := [0; 2; 2].

Definition sample_batched : list embedding :=
  [[1; 0]; [1; 0]; [0; 1]]%float.

(** A configuration of the completion class. *)
Definition sample_llm (streaming : bool) (batch_size : Z)
  : Llms.BaseCompressaLLM :=
  {| Llms.model_name := "Compressa-LLM";
     Llms.temperature := 0.5;
     Llms.max_tokens := 256;
     Llms.top_p := 1;
     Llms.frequency_penalty := 0;
     Llms.presence_penalty := 0;
     Llms.n := 1;
     Llms.best_of := 1;
     Llms.model_kwargs := ∅;
     Llms.compressa_api_key := Some "key";
     Llms.compressa_api_base := None;
     Llms.batch_size := batch_size;
     Llms.logit_bias := None;
     Llms.streaming := streaming |}.

Definition sample_choice : Llms.choice :=
  {| Llms.text := "fine"; Llms.finish_reason := Some "stop";
     Llms.logprobs := None |}.

(** A response that carries an error, with or without choices. *)
Definition error_response (choices : option (list Llms.choice))
  : Llms.response :=
  {| Llms.error := Some "model overloaded";
     Llms.choices := choices;
     Llms.usage := Some ∅;
     Llms.system_fingerprint := None |}.

(** A response without an error. *)
Definition ok_response : Llms.response :=
  {| Llms.error := None;
     Llms.choices := Some [sample_choice];
     Llms.usage := Some {["total_tokens" := 5]};
     Llms.system_fingerprint := Some "fp" |}.

(** Clients that answer every request with [r], or with a stream of one
    chunk. *)
Definition sample_llm_env (r : Llms.response) : Llms.environment :=
  {| Llms.environ := ∅;
     Llms.client := λ _ _, Ok r;
     Llms.client_stream :=
       λ _ _, Ok [{| Llms.stream_choices := [sample_choice] |}];
     Llms.async_client := λ _ _, Ok r;
     Llms.async_client_stream :=
       λ _ _, Ok [{| Llms.stream_choices := [sample_choice] |}];
     Llms.chunk_add :=
       λ a b, {| Llms.chunk_text :=
                   Llms.chunk_text a +:+ Llms.chunk_text b;
                 Llms.generation_info := Llms.generation_info b |} |}.

End Samples.

(* ================================================================== *)
(** ** Facts about the builtins                                        *)
(* ================================================================== *)

Lemma bind_ok {A B} (m : result A) (k : A → result B) (b : B) :
  m ≫= k = Ok b ↔ ∃ a, m = Ok a ∧ k a = Ok b.
Proof.
  destruct m as [a|e]; simpl; split.
  - intros H. by exists a.
  - by intros (a' & [= <-] & H).
  - done.
  - by intros (a' & ? & _).
Qed.

Section Builtins.

Context {A B : Type}.

Lemma position_of_nat (n j : nat) :
  position n (Z.of_nat j) = if decide (j < n)%nat then Some j else None.
Proof.
  unfold position.
  destruct (Z.ltb_spec (Z.of_nat j) 0); [lia|].
  destruct (Z.leb_spec 0 (Z.of_nat j)); [|lia].
  destruct (Z.ltb_spec (Z.of_nat j) (Z.of_nat n)); simpl;
    case_decide; try lia; by rewrite ?Nat2Z.id.
Qed.

Lemma position_lt (n p : nat) (i : Z) : position n i = Some p → (p < n)%nat.
Proof.
  unfold position. intros H.
  destruct (_ && _) eqn:E; [|done]. injection H as <-.
  apply andb_prop in E as [E1 E2].
  apply Z.leb_le in E1. apply Z.ltb_lt in E2. lia.
Qed.

Lemma getitem_of_nat (l : list A) (j : nat) :
  getitem l (Z.of_nat j)
  = match l !! j with Some x => Ok x | None => Raise IndexError end.
Proof.
  unfold getitem. rewrite position_of_nat. case_decide; simpl; [done|].
  by rewrite lookup_ge_None_2 by lia.
Qed.

Lemma getitem_position (l : list A) (i : Z) (p : nat) :
  position (length l) i = Some p →
  ∃ x, l !! p = Some x ∧ getitem l i = Ok x.
Proof.
  intros H. destruct (lookup_lt_is_Some_2 l p) as [x Hx].
  { by eapply position_lt. }
  exists x. split; [done|]. unfold getitem. by rewrite H; simpl; rewrite Hx.
Qed.

Lemma getitem_cases (l : list A) (i : Z) :
  (∃ x, getitem l i = Ok x) ∨ getitem l i = Raise IndexError.
Proof. unfold getitem. destruct (_ ≫= _); eauto. Qed.

Lemma getitem_no_position (l : list A) (i : Z) :
  position (length l) i = None → getitem l i = Raise IndexError.
Proof. intros H. unfold getitem. by rewrite H. Qed.

Lemma foldM_app (f : B → A → result B) (l1 l2 : list A) (b : B) :
  foldM f (l1 ++ l2) b = foldM f l1 b ≫= foldM f l2.
Proof.
  revert b. induction l1 as [|x l1 IH]; intros b; simpl; [done|].
  destruct (f b x) as [b'|e]; simpl; [apply IH|done].
Qed.

Lemma range_S (m : nat) :
  range (Z.of_nat (S m)) = range (Z.of_nat m) ++ [Z.of_nat m].
Proof.
  unfold range. rewrite !Nat2Z.id, seq_S, fmap_app. done.
Qed.

Lemma range_of_nat (m : nat) : range (Z.of_nat m) = Z.of_nat <$> seq 0 m.
Proof. unfold range. by rewrite Nat2Z.id. Qed.

Lemma forM_ok (f : A → result B) (l : list A) (out : list B) :
  forM f l = Ok out ↔ Forall2 (λ x y, f x = Ok y) l out.
Proof.
  revert out. induction l as [|x l IH]; intros out; simpl.
  - split; [intros [= <-]; constructor | by inversion 1].
  - split.
    + intros H. apply bind_ok in H as (y & Hy & H).
      apply bind_ok in H as (ys & Hys & [= <-]).
      constructor; [done|]. by apply IH.
    + inversion 1 as [|? y ? ys Hy Hys]; subst.
      apply IH in Hys. by rewrite Hy; simpl; rewrite Hys.
Qed.

Lemma forM_raise (f : A → result B) (l : list A) (x : A) (e : exn) :
  x ∈ l → f x = Raise e → ∃ e', forM f l = Raise e'.
Proof.
  intros Hin Hx. destruct (forM f l) as [out|e'] eqn:E; [|by eexists].
  apply forM_ok in E. apply list_elem_of_lookup in Hin as [i Hi].
  destruct (Forall2_lookup_l _ _ _ _ _ E Hi) as (y & _ & Hy). congruence.
Qed.

Lemma forM_ext (f g : A → result B) (l : list A) :
  (∀ x, x ∈ l → f x = g x) → forM f l = forM g l.
Proof.
  induction l as [|x l IH]; intros H; simpl; [done|].
  rewrite (H x) by left. rewrite IH; [done|].
  intros y Hy. apply H. by right.
Qed.

End Builtins.

Lemma forM_fmap {A B C} (f : B → result C) (g : A → B) (l : list A) :
  forM f (g <$> l) = forM (f ∘ g) l.
Proof.
  induction l as [|x l IH]; [done|].
  rewrite fmap_cons. cbn [forM]. by rewrite IH.
Qed.

Lemma forM_total {A B} (f : A → result B) (l : list A) :
  (∀ x, x ∈ l → ∃ y, f x = Ok y) → ∃ out, forM f l = Ok out.
Proof.
  induction l as [|x l IH]; intros H; simpl; [by eexists|].
  destruct (H x) as [y ->]; [by left|].
  destruct IH as [out ->]; [intros z Hz; apply H; by right|].
  by eexists.
Qed.

Lemma forM_length {A B} (f : A → result B) (l : list A) (out : list B) :
  forM f l = Ok out → length out = length l.
Proof. intros H. apply forM_ok in H. symmetry. by eapply Forall2_length. Qed.

(* ================================================================== *)
(** ** The first loop files each chunk under its origin                *)
(* ================================================================== *)

Section Scatter.

Variable num_texts : Z.
Variable tokens : list chunk.
Variable batched_embeddings : list embedding.
Variable indices : list Z.
Variable skip_empty : bool.

Local Abbreviation n := (Z.to_nat num_texts).
Local Abbreviation filed := (filed num_texts batched_embeddings indices skip_empty).
Local Abbreviation members_upto :=
  (members_upto num_texts batched_embeddings indices skip_empty).
Local Abbreviation tables_upto :=
  (tables_upto num_texts tokens batched_embeddings indices skip_empty).
Local Abbreviation step_ok :=
  (step_ok num_texts tokens batched_embeddings indices skip_empty).
Local Abbreviation scatter_step :=
  (scatter_step tokens batched_embeddings indices skip_empty).
Local Abbreviation emb_at := (emb_at batched_embeddings).
Local Abbreviation len_at := (len_at tokens).

Lemma filed_functional p q j : filed p j → filed q j → p = q.
Proof. intros [Hp _] [Hq _]. congruence. Qed.

Lemma members_upto_S m p :
  members_upto (S m) p
  = members_upto m p ++ (if decide (filed p m) then [m] else []).
Proof.
  unfold members_upto. rewrite seq_S, filter_app. by f_equal.
Qed.

Lemma table_lookup {X} (f : nat → X) m q :
  ((λ p, f <$> members_upto m p) <$> seq 0 n) !! q
  = if decide (q < n)%nat then Some (f <$> members_upto m q) else None.
Proof.
  rewrite list_lookup_fmap. case_decide.
  - by rewrite lookup_seq_lt.
  - by rewrite lookup_seq_ge by lia.
Qed.

Lemma table_length {X} (f : nat → X) m :
  length ((λ p, f <$> members_upto m p) <$> seq 0 n) = n.
Proof. by rewrite length_fmap, length_seq. Qed.

Lemma table_insert {X} (f : nat → X) m p :
  filed p m →
  <[p := (f <$> members_upto m p) ++ [f m]]>
    ((λ q, f <$> members_upto m q) <$> seq 0 n)
  = (λ q, f <$> members_upto (S m) q) <$> seq 0 n.
Proof.
  intros Hp. apply list_eq. intros q.
  destruct (decide (q = p)) as [->|Hne].
  - destruct (decide (p < n)%nat) as [Hlt|Hge].
    + rewrite list_lookup_insert_eq by (by rewrite table_length).
      rewrite table_lookup, decide_True by done.
      rewrite members_upto_S, decide_True by done.
      by rewrite fmap_app.
    + rewrite list_insert_ge by (rewrite table_length; lia).
      by rewrite !table_lookup, !decide_False by done.
  - rewrite list_lookup_insert_ne by done.
    rewrite !table_lookup. case_decide; [|done].
    rewrite members_upto_S, decide_False, app_nil_r; [done|].
    intros Hq. by apply Hne, (filed_functional q p m).
Qed.

Lemma table_skip {X} (f : nat → X) m :
  (∀ p, ¬ filed p m) →
  (λ q, f <$> members_upto (S m) q) <$> seq 0 n
  = (λ q, f <$> members_upto m q) <$> seq 0 n.
Proof.
  intros H. apply list_fmap_ext. intros _ q _.
  by rewrite members_upto_S, decide_False, app_nil_r.
Qed.

Lemma append_at_table {X} (f : nat → X) m (k : Z) (x : X) p :
  position n k = Some p →
  append_at ((λ q, f <$> members_upto m q) <$> seq 0 n) k x
  = Ok (<[p := (f <$> members_upto m p) ++ [x]]>
          ((λ q, f <$> members_upto m q) <$> seq 0 n)).
Proof.
  intros Hk. unfold append_at. rewrite table_length, Hk.
  rewrite table_lookup, decide_True; [done|]. by eapply position_lt.
Qed.

Lemma getitem_table {X} (f : nat → X) m (k : Z) :
  getitem ((λ q, f <$> members_upto m q) <$> seq 0 n) k
  = match position n k with
    | Some p => Ok (f <$> members_upto m p)
    | None => Raise IndexError
    end.
Proof.
  unfold getitem. rewrite table_length.
  destruct (position n k) as [p|] eqn:Hk; simpl; [|done].
  rewrite table_lookup, decide_True; [done|]. by eapply position_lt.
Qed.

(** One iteration of the first loop, started on the tables of the
    first [m] chunks. *)
Lemma skip_test e :
  (if skip_empty
   then Ok e ≫= λ e0 : embedding, Ok (bool_decide (length e0 = 1%nat))
   else Ok false) = Ok (skipped skip_empty e).
Proof. unfold skipped. by destruct skip_empty. Qed.

(** One iteration of the first loop, started on the tables of the
    first [m] chunks. *)
Lemma scatter_step_ok m :
  step_ok m →
  scatter_step (tables_upto m) (Z.of_nat m) = Ok (tables_upto (S m)).
Proof.
  unfold scatter_step, tables_upto, step_ok.
  rewrite !getitem_of_nat.
  destruct (batched_embeddings !! m) as [e|] eqn:He; [|done].
  assert (Hat : emb_at m = e) by (unfold emb_at; by rewrite He).
  rewrite skip_test. simpl. intros Hok.
  destruct (skipped skip_empty e) eqn:Hs.
  { rewrite !table_skip; [done| |];
      intros p [_ Hp]; rewrite Hat in Hp; congruence. }
  destruct Hok as [?|[[p Hp] [t Ht]]]; [done|].
  destruct (indices !! m) as [k|] eqn:Hk; [|done]. simpl in Hp.
  assert (Hf : filed p m).
  { split; [by rewrite Hk|]. by rewrite Hat. }
  rewrite Ht. simpl. rewrite !getitem_table, Hp. simpl.
  rewrite !(append_at_table _ _ _ _ p Hp). simpl.
  rewrite <- Hat at 1. rewrite table_insert by done.
  replace (chunk_len t) with (len_at m)
    by (unfold len_at; by rewrite Ht).
  by rewrite table_insert.
Qed.

Lemma scatter_step_raise m :
  (m < length indices)%nat → ¬ step_ok m →
  scatter_step (tables_upto m) (Z.of_nat m) = Raise IndexError.
Proof.
  intros Hm. destruct (lookup_lt_is_Some_2 indices m Hm) as [k Hk].
  unfold scatter_step, tables_upto, step_ok.
  rewrite !getitem_of_nat, Hk.
  destruct (batched_embeddings !! m) as [e|] eqn:He.
  2:{ intros _. destruct skip_empty; simpl; [done|].
      by match goal with
         | |- context [getitem ?t k] =>
             destruct (getitem_cases t k) as [[? ->]| ->]
         end. }
  rewrite skip_test. simpl. intros Hok.
  destruct (skipped skip_empty e) eqn:Hs; [by destruct Hok; left|].
  rewrite !getitem_table.
  destruct (position n k) as [p|] eqn:Hp; simpl; [|done].
  rewrite !(append_at_table _ _ _ _ p Hp). simpl.
  destruct (tokens !! m) as [t|] eqn:Ht; simpl; [|done].
  destruct Hok. right. split; eauto.
Qed.

Lemma scatter_step_spec m :
  (m < length indices)%nat →
  scatter_step (tables_upto m) (Z.of_nat m)
  = if decide (step_ok m) then Ok (tables_upto (S m))
    else Raise IndexError.
Proof.
  intros Hm. case_decide.
  - by apply scatter_step_ok.
  - by apply scatter_step_raise.
Qed.

Lemma scatter_prefix m :
  (m ≤ length indices)%nat →
  foldM scatter_step (range (Z.of_nat m)) (tables_upto 0)
  = if decide (Forall step_ok (seq 0 m)) then Ok (tables_upto m)
    else Raise IndexError.
Proof.
  induction m as [|m IH]; intros Hm.
  - by rewrite decide_True by constructor.
  - rewrite range_S, foldM_app, IH by lia. rewrite seq_S.
    destruct (decide (Forall step_ok (seq 0 m))) as [Hall|Hall].
    + cbn [mbind result_bind bind foldM].
      rewrite scatter_step_spec by lia.
      destruct (decide (step_ok m)) as [Hs|Hs]; cbn [bind].
      * rewrite decide_True; [done|].
        apply Forall_app; split; [done|]. by constructor.
      * rewrite decide_False; [done|].
        intros [_ H']%Forall_app. by inversion H'.
    + rewrite decide_False; [done|]. by intros [? _]%Forall_app.
Qed.

(** The first loop ends with the tables of all chunks, or with
    [IndexError] when some iteration subscripts out of range. *)
Lemma scatter_spec :
  scatter num_texts tokens batched_embeddings indices skip_empty
  = if decide (well_formed num_texts tokens batched_embeddings indices
                           skip_empty)
    then Ok (tables_upto (length indices))
    else Raise IndexError.
Proof.
  unfold scatter, len.
  transitivity (foldM scatter_step (range (Z.of_nat (length indices)))
                      (tables_upto 0)).
  { f_equal. unfold tables_upto.
    generalize n. intros k. unfold members_upto. simpl.
    induction k as [|k IH] using nat_ind; [done|].
    rewrite seq_S, !fmap_app, !replicate_S_end. simpl.
    by injection IH as -> ->. }
  rewrite scatter_prefix by done.
  unfold well_formed. by repeat case_decide.
Qed.

End Scatter.

(* ================================================================== *)
(** ** The second loop combines the chunks of each text                *)
(* ================================================================== *)

Section Columns.

Context {libm : Libm}.

Local Open Scope float_scope.

Lemma zip_cons_lookup {A} (row : list A) (cols : list (list A)) (d : nat) :
  zip_cons row cols !! d
  = (row !! d) ≫= λ x, (cols !! d) ≫= λ c, Some (x :: c).
Proof.
  revert cols d. induction row as [|x row IH]; intros [|c cols] [|d];
    simpl; try done.
  by destruct (row !! d).
Qed.

Lemma zip_star_lookup (rows : list embedding) (d : nat) :
  rows ≠ [] →
  zip_star rows !! d
  = if decide (d < dim rows)%nat then Some (component d <$> rows) else None.
Proof.
  induction rows as [|r rows IH]; [done|]. intros _.
  destruct rows as [|r' rows].
  - clear IH. simpl. rewrite list_lookup_fmap. case_decide.
    + destruct (lookup_lt_is_Some_2 r d) as [x Hx]; [done|].
      rewrite Hx. simpl. unfold component.
      by rewrite (nth_lookup_Some _ _ _ _ Hx).
    + by rewrite lookup_ge_None_2 by lia.
  - change (zip_star (r :: r' :: rows))
      with (zip_cons r (zip_star (r' :: rows))).
    rewrite zip_cons_lookup, IH by done. clear IH.
    change (dim (r :: r' :: rows))
      with (Nat.min (length r) (dim (r' :: rows))).
    generalize (dim (r' :: rows)); intros k.
    rewrite (fmap_cons _ r). generalize (component d <$> r' :: rows).
    intros col.
    destruct (decide (d < length r)%nat) as [Hd|Hd].
    + destruct (lookup_lt_is_Some_2 r d Hd) as [x Hx]. rewrite Hx.
      unfold component. rewrite (nth_lookup_Some _ _ _ _ Hx).
      repeat case_decide; try lia; done.
    + rewrite lookup_ge_None_2 by lia. simpl. case_decide; [lia|done].
Qed.

Lemma zip_star_length (rows : list embedding) :
  rows ≠ [] → length (zip_star rows) = dim rows.
Proof.
  intros H.
  destruct (Nat.lt_trichotomy (length (zip_star rows)) (dim rows))
    as [Hlt|[?|Hgt]]; [|done|].
  - pose proof (zip_star_lookup rows (length (zip_star rows)) H) as E.
    rewrite decide_True in E by done.
    by rewrite lookup_ge_None_2 in E by lia.
  - pose proof (zip_star_lookup rows (dim rows) H) as E.
    rewrite decide_False in E by lia.
    apply lookup_ge_None_1 in E. lia.
Qed.

(** [zip( *rows)] lists, dimension by dimension, that component of every
    row. *)
Lemma zip_star_columns (rows : list embedding) :
  rows ≠ [] →
  zip_star rows = (λ d, component d <$> rows) <$> seq 0 (dim rows).
Proof.
  intros H. apply list_eq. intros d.
  rewrite zip_star_lookup, list_lookup_fmap by done. case_decide.
  - by rewrite lookup_seq_lt.
  - by rewrite lookup_seq_ge by lia.
Qed.

Lemma zip_column (rows : list embedding) (ws : list Z) (d : nat) :
  (λ '(val, weight), val * of_int weight) <$> zip (component d <$> rows) ws
  = (λ c : embedding * Z, component d c.1 * of_int c.2) <$> zip rows ws.
Proof.
  revert ws. induction rows as [|r rows IH]; intros [|w ws]; simpl; try done.
  f_equal. apply IH.
Qed.

(** The [else] branch computes the aggregate the way the specification
    words it, also where it raises. *)
Lemma combine_spec (rows : list embedding) (ws : list Z) :
  (2 ≤ length rows)%nat → length rows = length ws →
  combine rows ws = Some <$> spec_aggregate (zip rows ws).
Proof.
  intros H2 Hlen.
  assert (Hne : rows ≠ []) by (intros ->; simpl in H2; lia).
  destruct rows as [|r1 [|r2 rows]]; simpl in H2; try lia.
  unfold combine, spec_aggregate, weighted_average, common_dim.
  rewrite zip_star_columns, forM_fmap by done.
  rewrite fst_zip by lia.
  rewrite (forM_ext _ (spec_average (zip (r1 :: r2 :: rows) ws))).
  2:{ intros d _. unfold spec_average, spec_weighted_sum, compose.
      rewrite zip_column. by rewrite snd_zip by lia. }
  destruct (forM _ (seq 0 _)) as [average|e]; [|done].
  cbn [mbind result_bind bind fmap result_fmap].
  unfold normalize, spec_l2_normalize, spec_norm.
  destruct (forM pow_2 average) as [squares|e]; [|done].
  cbn [mbind result_bind bind].
  destruct (pow_half _) as [magnitude|e]; [|done].
  cbn [mbind result_bind bind].
  by destruct (forM _ average).
Qed.

End Columns.

Section Process.

Context {libm : Libm}.

Variable num_texts : Z.
Variable tokens : list chunk.
Variable batched_embeddings : list embedding.
Variable indices : list Z.
Variable skip_empty : bool.

Local Abbreviation n := (Z.to_nat num_texts).
Local Abbreviation rows :=
  (rows num_texts batched_embeddings indices skip_empty).
Local Abbreviation weights :=
  (weights num_texts tokens batched_embeddings indices skip_empty).
Local Abbreviation well_formed :=
  (well_formed num_texts tokens batched_embeddings indices skip_empty).

Lemma rows_weights_length p : length (rows p) = length (weights p).
Proof. unfold rows, weights. by rewrite !length_fmap. Qed.

Lemma gather_step_spec p :
  (p < n)%nat →
  gather_step
    (tables_upto num_texts tokens batched_embeddings indices skip_empty
                 (length indices)) (Z.of_nat p)
  = combine (rows p) (weights p).
Proof.
  intros Hp. unfold gather_step, tables_upto. cbn [fst snd].
  rewrite !getitem_table, position_of_nat, decide_True by done.
  cbn [mbind result_bind bind].
  fold (members num_texts batched_embeddings indices skip_empty p).
  fold (rows p). fold (weights p).
  by destruct (rows p) as [|? [|? ?]].
Qed.

(** The whole function: [IndexError] when the first loop subscripts out
    of range, otherwise the combination of each text's chunks, in the
    order of the texts. *)
Lemma process_spec :
  _process_batched_chunked_embeddings
    num_texts tokens batched_embeddings indices skip_empty
  = if decide well_formed
    then forM (λ p, combine (rows p) (weights p)) (seq 0 n)
    else Raise IndexError.
Proof.
  unfold _process_batched_chunked_embeddings. rewrite scatter_spec.
  case_decide; [|done]. cbn [mbind result_bind bind].
  unfold range. rewrite forM_fmap. apply forM_ext.
  intros p Hp%elem_of_seq. unfold compose. apply gather_step_spec. lia.
Qed.

Lemma process_ok out :
  _process_batched_chunked_embeddings
    num_texts tokens batched_embeddings indices skip_empty = Ok out →
  well_formed
  ∧ length out = n
  ∧ ∀ p, (p < n)%nat →
      ∃ o, combine (rows p) (weights p) = Ok o ∧ out !! p = Some o.
Proof.
  rewrite process_spec. case_decide; [|done]. intros Hf%forM_ok.
  split; [done|]. split.
  { apply Forall2_length in Hf. by rewrite length_seq in Hf. }
  intros p Hp.
  destruct (Forall2_lookup_l _ _ _ p p Hf) as (o & Ho & Hc).
  { by rewrite lookup_seq_lt. }
  eauto.
Qed.

(** The function returns whenever every subscript is in range and every
    text's chunks combine. *)
Lemma process_total :
  well_formed →
  (∀ p, (p < n)%nat → ∃ o, combine (rows p) (weights p) = Ok o) →
  ∃ out,
    _process_batched_chunked_embeddings
      num_texts tokens batched_embeddings indices skip_empty = Ok out.
Proof.
  intros Hwf Hall. rewrite process_spec, decide_True by done.
  apply forM_total. intros p Hp%elem_of_seq. apply Hall. lia.
Qed.

End Process.

(* ================================================================== *)
(** ** The chunk plan                                                  *)
(* ================================================================== *)

Lemma plan_app (s : nat) (a b : list (list (list Z))) :
  plan s (a ++ b) = plan s a ++ plan (s + length a) b.
Proof.
  revert s. induction a as [|ps a IH]; intros s; simpl.
  - by rewrite Nat.add_0_r.
  - rewrite IH, <- app_assoc. do 3 f_equal. lia.
Qed.

Lemma plan_origin (s : nat) (pss : list (list (list Z))) piece (o : nat) :
  (piece, o) ∈ plan s pss →
  (s ≤ o < s + length pss)%nat
  ∧ ∃ ps, pss !! (o - s)%nat = Some ps ∧ piece ∈ ps.
Proof.
  revert s. induction pss as [|ps pss IH]; intros s; simpl.
  - by intros ?%elem_of_nil.
  - intros [H|H]%elem_of_app.
    + apply list_elem_of_fmap in H as (x & [= -> ->] & Hx).
      split; [lia|]. exists ps. by rewrite Nat.sub_diag.
    + apply IH in H as (Hr & ps' & Hl & Hp). split; [lia|].
      exists ps'. split; [|done].
      by replace (o - s)%nat with (S (o - S s)) by lia.
Qed.

Lemma plan_tag (s : nat) (ps : list (list Z)) :
  (Z.of_nat ∘ snd) <$> ((λ piece, (piece, s)) <$> ps)
  = replicate (length ps) (Z.of_nat s).
Proof. induction ps as [|x ps IH]; simpl; [done|]. by rewrite <- IH. Qed.

Section Tokenize.

Variable env : environment.
Variable self : CompressaEmbeddings.

Local Abbreviation L := (embedding_ctx_length self).
Local Abbreviation pieces := (pieces self).

(** The inner loop appends the slices, each with the ordinal [i]. *)
Lemma split_token_spec wrap i token ts ixs :
  split_token self wrap i token (ts, ixs)
  = ps ← pieces token;
    Ok (ts ++ (wrap <$> ps), ixs ++ replicate (length ps) i).
Proof.
  unfold split_token, pieces.
  destruct (range_step (len token) L) as [js|e]; simpl; [|done].
  f_equal. revert ts ixs.
  induction js as [|j js IH]; intros ts ixs; simpl.
  - by rewrite !app_nil_r.
  - rewrite IH, <- !app_assoc. done.
Qed.

Lemma tokenize_unfold texts chunk_size :
  _tokenize env self texts chunk_size
  = '(encode_, wrap) ← text_encoder env self;
    '(tokens, indices) ←
      foldM (λ acc '(i, text),
               token ← encode_ text; split_token self wrap i token acc)
            (enumerate texts) ([], []);
    _iter ← range_step (len tokens) chunk_size;
    Ok (_iter, tokens, indices).
Proof.
  unfold _tokenize, text_encoder.
  destruct (tiktoken_enabled self); simpl.
  - by destruct (match encoding_for_model env _ with
                 | Some enc => Ok enc
                 | None => get_encoding env _
                 end).
  - destruct (transformers_installed env); simpl; [|done].
    by destruct (from_pretrained env _).
Qed.

(** The loop over the texts, started at ordinal [s]. *)
Lemma tokenize_loop (encode_ : string → result (list Z)) wrap
    (texts : list string) (s : nat) ts ixs acc :
  foldM (λ acc '(i, text),
           token ← encode_ text; split_token self wrap i token acc)
        (zip (Z.of_nat <$> seq s (length texts)) texts) (ts, ixs) = Ok acc →
  ∃ pss,
    Forall2 (λ text ps, encode_ text ≫= pieces = Ok ps) texts pss
    ∧ acc = (ts ++ ((wrap ∘ fst) <$> plan s pss),
             ixs ++ ((Z.of_nat ∘ snd) <$> plan s pss)).
Proof.
  revert s ts ixs.
  induction texts as [|text texts IH]; intros s ts ixs; simpl.
  - intros [= <-]. exists []. by rewrite !app_nil_r.
  - destruct (encode_ text) as [token|e] eqn:Et; simpl; [|done].
    rewrite split_token_spec.
    destruct (pieces token) as [ps|e] eqn:Ep; simpl; [|done].
    intros (pss & HF & ->)%IH. exists (ps :: pss). split.
    + constructor; [|done]. by rewrite Et.
    + simpl. rewrite !fmap_app, <- !app_assoc, plan_tag.
      by rewrite <- list_fmap_compose.
Qed.

(** [_tokenize] lists the slices of the texts in the order of the
    texts, and the origin index of a slice is the ordinal of its text. *)
Lemma tokenize_plan (texts : list string) chunk_size _iter tokens indices
    encode_ wrap :
  _tokenize env self texts chunk_size = Ok (_iter, tokens, indices) →
  text_encoder env self = Ok (encode_, wrap) →
  ∃ pss,
    Forall2 (λ text ps, encode_ text ≫= pieces = Ok ps) texts pss
    ∧ tokens = (wrap ∘ fst) <$> plan 0 pss
    ∧ indices = (Z.of_nat ∘ snd) <$> plan 0 pss
    ∧ range_step (len tokens) chunk_size = Ok _iter.
Proof.
  rewrite tokenize_unfold. intros H He. rewrite He in H. simpl in H.
  unfold enumerate, range, len in H. rewrite Nat2Z.id in H.
  destruct (foldM _ _ _) as [[tk ix]|e] eqn:E; simpl in H; [|done].
  apply tokenize_loop in E as (pss & HF & [= -> ->]).
  exists pss. simpl in *.
  destruct (range_step _ chunk_size) as [it|e] eqn:Er; simpl in H; [|done].
  by injection H as <- <- <-.
Qed.

End Tokenize.

(* ================================================================== *)
(** ** Slices of a token sequence                                      *)
(* ================================================================== *)

Lemma slice_nat {A} (l : list A) (a b : nat) :
  (a ≤ b)%nat → slice l (Z.of_nat a) (Z.of_nat b) = take (b - a) (drop a l).
Proof.
  intros Hab. unfold slice, clamp, len.
  destruct (Z.ltb_spec (Z.of_nat a) 0); [lia|].
  destruct (Z.ltb_spec (Z.of_nat b) 0); [lia|].
  destruct (decide (b ≤ length l)%nat).
  - rewrite !Z.min_l by lia. rewrite Nat2Z.id. f_equal. lia.
  - rewrite (Z.min_r (Z.of_nat b)) by lia.
    destruct (decide (a ≤ length l)%nat).
    + rewrite Z.min_l by lia. rewrite Nat2Z.id.
      rewrite !take_ge; [done|rewrite length_drop; lia..].
    + rewrite Z.min_r by lia. rewrite Nat2Z.id, Z.sub_diag. simpl.
      rewrite (drop_ge l a) by lia. by destruct (b - a)%nat.
Qed.

Lemma concat_windows {A} (l : list A) (c m : nat) :
  concat ((λ q, take c (drop (q * c) l)) <$> seq 0 m) = take (m * c) l.
Proof.
  induction m as [|m IH]; [done|].
  rewrite seq_S, fmap_app, concat_app, IH. simpl.
  by rewrite app_nil_r, take_take_drop, Nat.add_comm.
Qed.

Section Pieces.

Variable self : CompressaEmbeddings.

Local Abbreviation L := (embedding_ctx_length self).

(** With a positive context length [c] the slices are the consecutive
    windows of [c] tokens. *)
Lemma pieces_pos (token : list Z) (c : nat) :
  (0 < c)%nat → L = Z.of_nat c →
  pieces self token
  = Ok ((λ q, take c (drop (q * c) token))
          <$> seq 0 (Z.to_nat ((len token + L - 1) / L))).
Proof.
  intros Hc HL. unfold pieces, range_step. rewrite HL.
  destruct (Z.eqb_spec (Z.of_nat c) 0); [lia|].
  destruct (Z.ltb_spec (Z.of_nat c) 0); [lia|].
  simpl. f_equal. rewrite <- list_fmap_compose.
  apply list_fmap_ext. intros _ q _. simpl.
  replace (Z.of_nat q * Z.of_nat c) with (Z.of_nat (q * c)) by lia.
  replace (Z.of_nat (q * c) + Z.of_nat c)
    with (Z.of_nat (q * c + c)) by lia.
  rewrite slice_nat by lia. f_equal. lia.
Qed.

(** No token, no slice. *)
Lemma pieces_nil ps : pieces self [] = Ok ps → ps = [].
Proof.
  unfold pieces, range_step, len. simpl.
  destruct (Z.eqb_spec L 0); [done|].
  destruct (Z.ltb_spec L 0); simpl; [by intros [= <-]|].
  rewrite Z.div_small by lia. simpl. by intros [= <-].
Qed.

(** A sequence of [k * L + 1] tokens gives [k] slices of [L] tokens and
    one more of a single token. *)
Lemma pieces_remainder_one (token : list Z) ps (k : nat) :
  1 ≤ L → len token = Z.of_nat k * L + 1 → pieces self token = Ok ps →
  length ps = S k
  ∧ concat ps = token
  ∧ ∀ q piece, ps !! q = Some piece →
      len piece = if decide (q < k)%nat then L else 1.
Proof.
  intros HL Hlen. unfold len in Hlen.
  rewrite (pieces_pos token (Z.to_nat L)) by lia.
  replace (len token + L - 1) with (Z.of_nat (S k) * L)
    by (unfold len; lia).
  rewrite Z.div_mul, Nat2Z.id by lia. intros Hps.
  assert (ps = (λ q, take (Z.to_nat L) (drop (q * Z.to_nat L) token))
                 <$> seq 0 (S k)) as -> by congruence.
  clear Hps.
  assert (Hn : length token = (k * Z.to_nat L + 1)%nat) by nia.
  split; [by rewrite length_fmap, length_seq|]. split.
  - rewrite concat_windows, take_ge; [done|]. nia.
  - intros q piece. rewrite list_lookup_fmap.
    destruct (seq 0 (S k) !! q) as [q'|] eqn:Hq; [|done].
    apply lookup_seq in Hq as [-> Hq]. simpl. intros [= <-].
    unfold len. rewrite length_take, length_drop, Hn.
    case_decide; nia.
Qed.

End Pieces.

Section Chunking.

Variable env : environment.
Variable self : CompressaEmbeddings.

Local Abbreviation L := (embedding_ctx_length self).

(** Where the slices of text [p] stand in the plan. *)
Lemma plan_middle (pss : list (list (list Z))) (p : nat) ps :
  pss !! p = Some ps →
  plan 0 pss
  = plan 0 (take p pss) ++ ((λ piece, (piece, p)) <$> ps)
      ++ plan (S p) (drop (S p) pss)
  ∧ (∀ x o, (x, o) ∈ plan 0 (take p pss) → (o < p)%nat)
  ∧ (∀ x o, (x, o) ∈ plan (S p) (drop (S p) pss) → (p < o)%nat).
Proof.
  intros Hp. pose proof (lookup_lt_Some _ _ _ Hp) as Hlt.
  split; [|split].
  - rewrite <- (take_drop_middle pss p ps Hp) at 1.
    rewrite plan_app, length_take. simpl.
    by replace (p `min` length pss)%nat with p by lia.
  - intros x o [Ho _]%plan_origin. rewrite length_take in Ho. lia.
  - intros x o [Ho _]%plan_origin. lia.
Qed.


End Chunking.

(* ================================================================== *)
(** ** Requests and the empty-string embedding                         *)
(* ================================================================== *)

Lemma bind_run {Req A B} (m : M Req A) (k : A → M Req B) log :
  (m ≫= k) log
  = match m log with
    | (Ok a, log') => k a log'
    | (Raise e, log') => (Raise e, log')
    end.
Proof. done. Qed.

Lemma mret_run {Req A} (a : A) (log : list Req) :
  mret (M := M Req) a log = (Ok a, log).
Proof. done. Qed.

Lemma lift_run {Req A} (r : result A) (log : list Req) :
  lift r log = (r, log).
Proof. done. Qed.

Lemma create_run {Req Resp} (cl : list Req → Req → result Resp) req log :
  create cl req log = (cl log req, log ++ [req]).
Proof. done. Qed.

Ltac unfold_M :=
  repeat (progress
            (rewrite ?bind_run, ?mret_run, ?lift_run, ?create_run;
             cbn beta iota)).

Section Fill.

Variable create_ : embed_input → M embed_input embed_response.

(** Once the cache is filled, no request is issued. *)
Lemma fill_empty_cached embeddings e log :
  fill_empty create_ embeddings (Some e) log
  = (Ok (default e <$> embeddings), log).
Proof.
  induction embeddings as [|[x|] l IH]; cbn [fill_empty empty_embedding].
  - done.
  - unfold_M. by rewrite IH.
  - unfold_M. by rewrite IH.
Qed.

(** Every sentinel is replaced by one and the same embedding. *)
Lemma fill_empty_default embeddings log out log' :
  fill_empty create_ embeddings None log = (Ok out, log') →
  ∃ E, out = default E <$> embeddings.
Proof.
  revert out log log'.
  induction embeddings as [|[x|] l IH]; intros out log log';
    cbn [fill_empty empty_embedding]; unfold_M.
  - intros [= <- <-]. by exists [].
  - destruct (fill_empty create_ l None log) as [[o|e] lg] eqn:E; [|done].
    intros [= <- <-]. destruct (IH _ _ _ E) as [E0 ->]. by exists E0.
  - destruct (create_ (InputText "") log) as [[r|e] lg]; [|done].
    unfold_M. destruct (getitem (data r) 0) as [e|e]; [|done].
    unfold_M. rewrite fill_empty_cached. intros [= <- <-]. by exists e.
Qed.

End Fill.

Section Requests.

Variable cl : list embed_input → embed_input → result embed_response.

(** With no sentinel nothing is requested; otherwise the first sentinel
    issues the one empty-string request, whose first embedding replaces
    every sentinel. *)
Lemma fill_empty_spec embeddings log :
  fill_empty (create cl) embeddings None log
  = if decide (Forall is_Some embeddings)
    then (Ok (default [] <$> embeddings), log)
    else (r ← cl log (InputText "");
          e ← getitem (data r) 0;
          Ok (default e <$> embeddings),
          log ++ [InputText ""]).
Proof.
  induction embeddings as [|[x|] l IH]; cbn [fill_empty empty_embedding];
    unfold_M.
  - by rewrite decide_True by constructor.
  - rewrite IH. destruct (decide (Forall is_Some l)) as [Hin|Hin].
    + by rewrite decide_True by (by constructor).
    + rewrite decide_False by (by inversion 1).
      destruct (cl log (InputText "")) as [r|e]; simpl; [|done].
      by destruct (getitem (data r) 0).
  - rewrite decide_False by (inversion 1 as [|?? []]; done).
    clear IH.
    destruct (cl log (InputText "")) as [r|e]; unfold_M; [|done].
    simpl. destruct (getitem (data r) 0) as [e|e]; unfold_M; [|done].
    by rewrite fill_empty_cached.
Qed.

(** The batch loop requests batches only. *)
Lemma fetch_log tokens _chunk_size _iter log :
  ∃ batches,
    (fetch (create cl) tokens _chunk_size _iter log).2 = log ++ batches
    ∧ Forall (λ r, ∃ c, r = InputBatch c) batches.
Proof.
  unfold fetch. generalize ([] : list embedding). revert log.
  induction _iter as [|i l IH]; intros log acc; cbn [foldS].
  - exists []. by rewrite app_nil_r.
  - unfold_M.
    destruct (cl log (InputBatch _)) as [r|e] eqn:E; unfold_M.
    + destruct (IH (log ++ [InputBatch (slice tokens i (i + _chunk_size))])
                   (acc ++ data r)) as (bs & Hbs & HF).
      eexists (_ :: bs). rewrite Hbs, <- app_assoc. split; [done|].
      constructor; eauto.
    + eexists [_]. split; [done|]. constructor; eauto.
Qed.

Lemma empty_string_calls_batches (batches : list embed_input) :
  Forall (λ r, ∃ c, r = InputBatch c) batches →
  empty_string_calls batches = 0%nat.
Proof.
  unfold empty_string_calls. induction 1 as [|r l [c ->] _ IH]; [done|].
  by rewrite filter_cons_False.
Qed.

End Requests.

(* ================================================================== *)
(** ** Length-safe embedding                                           *)
(* ================================================================== *)

Section LenSafe.

Context {libm : Libm}.

Variable env : environment.
Variable self : CompressaEmbeddings.

Local Abbreviation skip := (skip_empty self).

Lemma aggregate_run create_ num_texts tokens batched_embeddings indices log :
  aggregate self create_ num_texts tokens batched_embeddings indices log
  = match _process_batched_chunked_embeddings
            num_texts tokens batched_embeddings indices skip with
    | Ok embeddings => fill_empty create_ embeddings None log
    | Raise e => (Raise e, log)
    end.
Proof.
  unfold aggregate. unfold_M.
  by destruct (_process_batched_chunked_embeddings _ _ _ _ _).
Qed.

Lemma tokenize_iter (texts : list string) cs _iter tokens indices :
  _tokenize env self texts cs = Ok (_iter, tokens, indices) →
  range_step (len tokens) cs = Ok _iter.
Proof.
  intros H. destruct (text_encoder env self) as [[enc wrap]|e] eqn:He.
  - by destruct (tokenize_plan _ _ _ _ _ _ _ _ _ H He) as (? & _ & _ & _ & ?).
  - by rewrite tokenize_unfold, He in H.
Qed.

(** Both variants tokenize, fetch the batches and aggregate; they differ
    in the client they call. *)
Lemma len_safe_unfold (async : bool) (texts : list string) cs log :
  (if async then _aget_len_safe_embeddings env self texts cs
   else _get_len_safe_embeddings env self texts cs) log
  = match _tokenize env self texts (or_int cs (chunk_size self)) with
    | Ok (_iter, tokens, indices) =>
        let cl := if async then async_client env else client env in
        (batched_embeddings ←
           fetch (create cl) tokens (or_int cs (chunk_size self)) _iter;
         aggregate self (create cl) (len texts) tokens batched_embeddings
                   indices) log
    | Raise e => (Raise e, log)
    end.
Proof.
  destruct async;
    unfold _aget_len_safe_embeddings, _get_len_safe_embeddings; cbn zeta;
    rewrite bind_run, lift_run;
    destruct (_tokenize _ _ _ _) as [[[it tk] ix]|e] eqn:E; try done.
  cbn beta iota. rewrite bind_run, lift_run.
  by rewrite (tokenize_iter _ _ _ _ _ E).
Qed.

(** What a returning run has requested and how its output was filled. *)
Lemma len_safe_run cl num_texts tokens cs _iter indices log out log' :
  (batched_embeddings ← fetch (create cl) tokens cs _iter;
   aggregate self (create cl) num_texts tokens batched_embeddings indices)
    log = (Ok out, log') →
  ∃ batched_embeddings batches embeddings extra E,
    log' = log ++ batches ++ extra
    ∧ Forall (λ r, ∃ c, r = InputBatch c) batches
    ∧ _process_batched_chunked_embeddings
        num_texts tokens batched_embeddings indices skip = Ok embeddings
    ∧ out = default E <$> embeddings
    ∧ ((Forall is_Some embeddings ∧ extra = [])
       ∨ (extra = [InputText ""]
          ∧ ∃ r, cl (log ++ batches) (InputText "") = Ok r
                 ∧ getitem (data r) 0 = Ok E)).
Proof.
  rewrite bind_run.
  destruct (fetch_log cl tokens cs _iter log) as (batches & Hlog & HF).
  destruct (fetch _ _ _ _ _) as [[be|e] lg]; [|done].
  simpl in Hlog. subst lg. rewrite aggregate_run.
  destruct (_process_batched_chunked_embeddings _ _ _ _ _)
    as [embeddings|e] eqn:Ep; [|done].
  rewrite fill_empty_spec. case_decide as Hs.
  - intros [= <- <-]. exists be, batches, embeddings, [], [].
    rewrite app_nil_r. eauto 10.
  - destruct (cl _ (InputText "")) as [r|e] eqn:Er; simpl; [|done].
    destruct (getitem (data r) 0) as [E|e] eqn:Eg; simpl; [|done].
    intros [= <- <-]. exists be, batches, embeddings, [InputText ""], E.
    rewrite <- app_assoc. split; [done|]. eauto 10.
Qed.

(** A text without tokens has no chunk filed under it. *)
Lemma no_token_no_member (texts : list string) cs _iter tokens indices
    batched_embeddings (i : nat) text :
  _tokenize env self texts cs = Ok (_iter, tokens, indices) →
  texts !! i = Some text →
  token_sequence env self text = Ok [] →
  members (len texts) batched_embeddings indices skip i = [].
Proof.
  intros Htok Htext Hseq. unfold token_sequence in Hseq.
  destruct (text_encoder env self) as [[enc wrap]|e] eqn:He; [|done].
  simpl in Hseq.
  destruct (tokenize_plan _ _ _ _ _ _ _ _ _ Htok He)
    as (pss & HF & _ & -> & _).
  destruct (members _ _ _ _ _) as [|j l] eqn:Em; [done|]. exfalso.
  assert (Hj : j ∈ members (len texts) batched_embeddings
                   ((Z.of_nat ∘ snd) <$> plan 0 pss) skip i)
    by (rewrite Em; left).
  apply list_elem_of_filter in Hj as [[Hj _] _].
  rewrite list_lookup_fmap in Hj.
  destruct (plan 0 pss !! j) as [[x o]|] eqn:Hp; [|done]. simpl in Hj.
  rewrite position_of_nat in Hj. case_decide; [|done].
  injection Hj as ->.
  apply list_elem_of_lookup_2, plan_origin in Hp as (_ & ps & Hps & Hx).
  rewrite Nat.sub_0_r in Hps.
  destruct (Forall2_lookup_l _ _ _ _ _ HF Htext) as (ps' & Hps' & Hpc).
  rewrite Hseq in Hpc. simpl in Hpc. apply pieces_nil in Hpc.
  rewrite Hps in Hps'. injection Hps' as ->. subst ps'.
  by apply elem_of_nil in Hx.
Qed.

End LenSafe.

(* ================================================================== *)
(** ** One embedding per text                                          *)
(* ================================================================== *)

Section Aggregate.

Context {libm : Libm}.

Variable self : CompressaEmbeddings.
Variable create_ : embed_input → M embed_input embed_response.
Variable texts : list string.
Variable tokens : list chunk.
Variable batched_embeddings : list embedding.
Variable indices : list Z.

Local Abbreviation members :=
  (members (len texts) batched_embeddings indices (skip_empty self)).
Local Abbreviation rows :=
  (rows (len texts) batched_embeddings indices (skip_empty self)).
Local Abbreviation weights :=
  (weights (len texts) tokens batched_embeddings indices (skip_empty self)).
Local Abbreviation chunks :=
  (chunks (len texts) tokens batched_embeddings indices (skip_empty self)).

Lemma zip_rows_weights p : zip (rows p) (weights p) = chunks p.
Proof.
  unfold rows, weights, chunks.
  induction (members p) as [|j l IH]; [done|].
  rewrite !fmap_cons. cbn [zip_with]. by f_equal.
Qed.

(** What a returning aggregation has computed. *)
Lemma aggregate_ok log out log' :
  aggregate self create_ (len texts) tokens batched_embeddings indices log
  = (Ok out, log') →
  well_formed (len texts) tokens batched_embeddings indices (skip_empty self)
  ∧ length out = length texts
  ∧ ∃ E, ∀ p, (p < length texts)%nat →
      ∃ o, combine (rows p) (weights p) = Ok o
           ∧ out !! p = Some (default E o).
Proof.
  rewrite aggregate_run.
  destruct (_process_batched_chunked_embeddings _ _ _ _ _)
    as [embeddings|e] eqn:Ep; [|done].
  intros [E ->]%fill_empty_default.
  apply process_ok in Ep as (Hwf & Hlen & Hall).
  unfold len in Hlen, Hall. rewrite Nat2Z.id in Hlen, Hall.
  split; [done|]. split; [by rewrite length_fmap|].
  exists E. intros p Hp. destruct (Hall p Hp) as (o & Hc & Ho).
  exists o. split; [done|]. by rewrite list_lookup_fmap, Ho.
Qed.

(** C1.  Whenever the aggregation step (the two loops of
    [_process_batched_chunked_embeddings], then the substitution of the
    empty-string embedding) returns, it returns one embedding per text:
    the output is as long as [texts], and its item [p] is computed from
    the chunks filed under text [p] alone: their combination, or the
    one empty-string embedding [E] where text [p] has no chunk. *)
Theorem aggregate_one_embedding_per_text log out log' :
  aggregate self create_ (len texts) tokens batched_embeddings indices log
  = (Ok out, log') →
  length out = length texts
  ∧ ∃ E, ∀ p, (p < length texts)%nat →
      ∃ o, combine (rows p) (weights p) = Ok o
           ∧ out !! p = Some (default E o).
Proof. intros H. by apply aggregate_ok in H as (_ & ? & ?). Qed.

(** C3.  A text with exactly one chunk filed under it (one chunk [j]
    whose origin index is the text's and which is not skipped) gets the
    embedding of that chunk as it stands in [batched_embeddings]. *)
Theorem single_chunk_verbatim log out log' (p j : nat) :
  aggregate self create_ (len texts) tokens batched_embeddings indices log
  = (Ok out, log') →
  (p < length texts)%nat →
  members p = [j] →
  ∃ e, batched_embeddings !! j = Some e ∧ out !! p = Some e.
Proof.
  intros (Hwf & _ & E & Hall)%aggregate_ok Hp Hm.
  destruct (Hall p Hp) as (o & Hc & Ho).
  unfold rows, weights in Hc. rewrite Hm in Hc.
  simpl in Hc. injection Hc as <-.
  assert (Hj : j ∈ members p) by (rewrite Hm; left).
  apply list_elem_of_filter in Hj as [_ Hj].
  unfold well_formed in Hwf. rewrite Forall_forall in Hwf.
  specialize (Hwf j Hj). unfold step_ok in Hwf.
  unfold emb_at in Ho.
  destruct (batched_embeddings !! j) as [e|]; [|done]. by exists e.
Qed.


End Aggregate.

Section EmptyTexts.

Context {libm : Libm}.

Variable env : environment.
Variable self : CompressaEmbeddings.

Lemma len_safe_length (async : bool) (texts : list string) cs log out log' :
  (if async then _aget_len_safe_embeddings env self texts cs
   else _get_len_safe_embeddings env self texts cs) log = (Ok out, log') →
  length out = length texts.
Proof.
  rewrite len_safe_unfold.
  destruct (_tokenize _ _ _ _) as [[[it tk] ix]|e]; [|done]. cbn zeta.
  intros (be & _ & embeddings & _ & E & _ & _ & Hp & -> & _)%len_safe_run.
  apply process_ok in Hp as (_ & Hlen & _).
  unfold len in Hlen. by rewrite length_fmap, Hlen, Nat2Z.id.
Qed.

(** A returning length-safe call, synchronous or asynchronous, has
    added to the log of requests the batches and then at most one
    request with the empty string as input; no batch is such a request.
    Every text whose token sequence is empty gets the first embedding
    [E] of the answer to that one request. *)
Lemma len_safe_empty_texts
    (async : bool) (texts : list string) cs log out log' :
  (if async then _aget_len_safe_embeddings env self texts cs
   else _get_len_safe_embeddings env self texts cs) log = (Ok out, log') →
  ∃ batches extra,
    log' = log ++ batches ++ extra
    ∧ (empty_string_calls (batches ++ extra) ≤ 1)%nat
    ∧ Forall (λ r, ∃ c, r = InputBatch c) batches
    ∧ (extra = [] ∨ extra = [InputText ""])
    ∧ ∀ (i : nat) text,
        texts !! i = Some text →
        token_sequence env self text = Ok [] →
        extra = [InputText ""]
        ∧ ∃ r E,
            (if async then async_client env else client env)
              (log ++ batches) (InputText "") = Ok r
            ∧ getitem (data r) 0 = Ok E
            ∧ out !! i = Some E.
Proof.
  rewrite len_safe_unfold.
  destruct (_tokenize _ _ _ _) as [[[it tk] ix]|e] eqn:Et; [|done].
  cbn zeta.
  intros (be & batches & embeddings & extra & E & -> & HF & Hp & -> & Hc)
           %len_safe_run.
  exists batches, extra. split; [done|]. split; [|split; [done|split]].
  - unfold empty_string_calls.
    rewrite filter_app, length_app.
    fold (empty_string_calls batches).
    rewrite empty_string_calls_batches by done.
    destruct Hc as [[_ ->]|[-> _]]; [simpl; lia|].
    rewrite filter_cons_True by done. simpl. lia.
  - destruct Hc as [[_ ->]|[-> _]]; eauto.
  - intros i text Htext Hseq.
    pose proof (no_token_no_member env self texts _ _ _ _ be i text
                  Et Htext Hseq) as Hm.
    apply process_ok in Hp as (_ & _ & Hall).
    destruct (Hall i) as (o & Ho & Hi).
    { apply lookup_lt_Some in Htext. unfold len. lia. }
    unfold rows, weights in Ho. rewrite Hm in Ho. injection Ho as <-.
    destruct Hc as [[Hs _]|[-> (r & Hr & Hg)]].
    + rewrite Forall_lookup in Hs. by destruct (Hs i None Hi).
    + split; [done|]. exists r, E.
      by rewrite list_lookup_fmap, Hi.
Qed.

(** C6.  With [check_embedding_ctx_length] on, every returning top-level
    call has added to the log of requests the batches and then at most
    one request with the empty string as input; no batch is such a
    request.  For [embed_documents] and [aembed_documents], every text
    whose token sequence is empty gets the first embedding [E] of the
    answer to that one request; for [embed_query] and [aembed_query], a
    text whose token sequence is empty gets that [E]. *)
Theorem empty_texts_share_one_request :
  check_embedding_ctx_length self = true →
  (∀ (async : bool) (texts : list string) log out log',
     (if async then aembed_documents env self texts
      else embed_documents env self texts) log = (Ok out, log') →
     ∃ batches extra,
       log' = log ++ batches ++ extra
       ∧ (empty_string_calls (batches ++ extra) ≤ 1)%nat
       ∧ Forall (λ r, ∃ c, r = InputBatch c) batches
       ∧ (extra = [] ∨ extra = [InputText ""])
       ∧ ∀ (i : nat) text,
           texts !! i = Some text →
           token_sequence env self text = Ok [] →
           extra = [InputText ""]
           ∧ ∃ r E,
               (if async then async_client env else client env)
                 (log ++ batches) (InputText "") = Ok r
               ∧ getitem (data r) 0 = Ok E
               ∧ out !! i = Some E)
  ∧ (∀ (async : bool) (text : string) log e log',
       (if async then aembed_query env self text
        else embed_query env self text) log = (Ok e, log') →
       ∃ batches extra,
         log' = log ++ batches ++ extra
         ∧ (empty_string_calls (batches ++ extra) ≤ 1)%nat
         ∧ Forall (λ r, ∃ c, r = InputBatch c) batches
         ∧ (extra = [] ∨ extra = [InputText ""])
         ∧ (token_sequence env self text = Ok [] →
            extra = [InputText ""]
            ∧ ∃ r,
                (if async then async_client env else client env)
                  (log ++ batches) (InputText "") = Ok r
                ∧ getitem (data r) 0 = Ok e)).
Proof.
  intros Hcheck.
  assert (Hdocs : ∀ (async : bool) (texts : list string) log,
             (if async then aembed_documents env self texts
              else embed_documents env self texts) log
             = (if async then _aget_len_safe_embeddings env self texts None
                else _get_len_safe_embeddings env self texts None) log).
  { intros [] texts log; unfold aembed_documents, embed_documents;
      by rewrite Hcheck. }
  split.
  - intros async texts log out log'. rewrite Hdocs.
    apply len_safe_empty_texts.
  - intros async text log e log' Hrun.
    assert (∃ out, (if async then aembed_documents env self [text]
                    else embed_documents env self [text]) log
                   = (Ok out, log')
                   ∧ getitem out 0 = Ok e) as (out & Hout & Hget).
    { destruct async; unfold aembed_query, embed_query in Hrun;
        rewrite bind_run in Hrun;
        match type of Hrun with
        | context [?m log] => destruct (m log) as [[out|err] lg] eqn:Em
        end; try done;
        rewrite lift_run in Hrun;
        exists out; by injection Hrun as -> ->. }
    rewrite Hdocs in Hout.
    pose proof (len_safe_length _ _ _ _ _ _ Hout) as Hlen.
    destruct (len_safe_empty_texts _ _ _ _ _ _ Hout)
      as (batches & extra & -> & Hcalls & Hb & Hx & Hall).
    exists batches, extra. repeat (split; [done|]).
    intros Hseq. destruct (Hall 0%nat text eq_refl Hseq)
      as (-> & r & E & Hr & HE & Ho).
    split; [done|]. exists r. split; [done|].
    destruct out as [|o [|??]]; try done.
    injection Ho as ->. change (getitem [E] 0) with (Ok E) in Hget.
    by injection Hget as <-.
Qed.

(** C10.  [embed_query] runs [embed_documents] on the one-text list and
    subscripts the result with 0; [aembed_query] does the same with
    [aembed_documents].  With [check_embedding_ctx_length] on, the list
    has that one item; with it off, the list is the data of the answer
    to the one request, whatever their number. *)
Theorem embed_query_first_document (text : string) log :
  embed_query env self text log
  = (let '(r, log') := embed_documents env self [text] log in
     (embeddings ← r; getitem embeddings 0, log'))
  ∧ aembed_query env self text log
    = (let '(r, log') := aembed_documents env self [text] log in
       (embeddings ← r; getitem embeddings 0, log'))
  ∧ (check_embedding_ctx_length self = true →
     ∀ embeddings log',
       embed_documents env self [text] log = (Ok embeddings, log') →
       ∃ e, embeddings = [e]
            ∧ embed_query env self text log = (Ok e, log'))
  ∧ (check_embedding_ctx_length self = true →
     ∀ embeddings log',
       aembed_documents env self [text] log = (Ok embeddings, log') →
       ∃ e, embeddings = [e]
            ∧ aembed_query env self text log = (Ok e, log'))
  ∧ (check_embedding_ctx_length self = false →
     ∀ embeddings log',
       embed_documents env self [text] log = (Ok embeddings, log') →
       ∃ r, client env log (InputText text) = Ok r
            ∧ embeddings = data r
            ∧ log' = log ++ [InputText text]
            ∧ embed_query env self text log = (getitem (data r) 0, log'))
  ∧ (check_embedding_ctx_length self = false →
     ∀ embeddings log',
       aembed_documents env self [text] log = (Ok embeddings, log') →
       ∃ r, async_client env log (InputText text) = Ok r
            ∧ embeddings = data r
            ∧ log' = log ++ [InputText text]
            ∧ aembed_query env self text log = (getitem (data r) 0, log')).
Proof.
  assert (Hq : ∀ m : M embed_input (list embedding),
             (embeddings ← m; lift (getitem embeddings 0)) log
             = (let '(r, log') := m log in
                (embeddings ← r; getitem embeddings 0, log'))).
  { intros m. rewrite bind_run. by destruct (m log) as [[l|e] lg]. }
  split; [apply Hq|]. split; [apply Hq|].
  unfold embed_query, aembed_query. rewrite !Hq.
  unfold embed_documents, aembed_documents.
  repeat split; intros -> embeddings log' H; cbn [negb] in *.
  - pose proof (len_safe_length false [text] None log _ _ H) as Hl.
    destruct embeddings as [|e [|??]]; try done. exists e.
    by rewrite H.
  - pose proof (len_safe_length true [text] None log _ _ H) as Hl.
    destruct embeddings as [|e [|??]]; try done. exists e.
    by rewrite H.
  - rewrite H. unfold embed_unchecked in H. cbn [foldS] in H.
    rewrite bind_run, bind_run, create_run in H.
    destruct (client env log (InputText text)) as [r|err]; [|done].
    rewrite mret_run in H. injection H as <- <-. by exists r.
  - rewrite H. unfold embed_unchecked in H. cbn [foldS] in H.
    rewrite bind_run, bind_run, create_run in H.
    destruct (async_client env log (InputText text)) as [r|err]; [|done].
    rewrite mret_run in H. injection H as <- <-. by exists r.
Qed.

End EmptyTexts.

(* ================================================================== *)
(** ** Degenerate aggregation                                          *)
(* ================================================================== *)

Section Zero.

Context {libm : Libm}.

Local Open Scope float_scope.

(** The floats that compare equal to zero. *)
Lemma eqb_zero (v : float) : (v =? 0) = true → v = 0 ∨ v = -0.
Proof.
  rewrite FloatAxioms.eqb_spec. intros H.
  rewrite <- (SF2Prim_Prim2SF v).
  destruct (Prim2SF v) as [s|s| |s m e]; vm_compute in H;
    try destruct s; try done.
  - by right.
  - by left.
Qed.

Lemma pow_2_zero (v : float) : (v =? 0) = true → pow_2 v = Ok 0.
Proof. by intros [-> | ->]%eqb_zero. Qed.

Lemma squares_zero (average : list float) :
  Forall (λ v, (v =? 0) = true) average →
  forM pow_2 average = Ok (replicate (length average) 0).
Proof.
  induction 1 as [|v l Hv _ IH]; [done|].
  cbn [forM]. by rewrite pow_2_zero, IH.
Qed.

Lemma sum_zero (k : nat) : sum_float (replicate k 0) = 0.
Proof.
  unfold sum_float. change (of_int 0) with 0%float.
  induction k as [|k IH]; [done|]. simpl.
  by change (0 + 0)%float with 0%float.
Qed.

(** A zero average has a zero norm, by which nothing divides. *)
Lemma normalize_zero (average : list float) :
  average ≠ [] →
  Forall (λ v, (v =? 0) = true) average →
  normalize average = Raise ZeroDivisionError.
Proof.
  intros Hne Hz. unfold normalize. rewrite squares_zero by done.
  cbn [mbind result_bind bind]. rewrite sum_zero.
  change (pow_half 0) with (Ok 0%float). cbn [bind].
  by destruct average.
Qed.

(** A zero total weight divides the first component already. *)
Lemma weighted_average_zero (rows : list embedding) (ws : list Z) :
  rows ≠ [] → (1 ≤ dim rows)%nat → sum_int ws = 0%Z →
  weighted_average rows ws = Raise ZeroDivisionError.
Proof.
  intros Hne Hd Hs. unfold weighted_average. rewrite Hs.
  pose proof (zip_star_length rows Hne) as Hl.
  destruct (zip_star rows) as [|col cols]; simpl in Hl; [lia|]. done.
Qed.

End Zero.

Section Degenerate.

Context {libm : Libm}.

Variable num_texts : Z.
Variable tokens : list chunk.
Variable batched_embeddings : list embedding.
Variable indices : list Z.
Variable skip_empty : bool.

Local Abbreviation n := (Z.to_nat num_texts).
Local Abbreviation members :=
  (members num_texts batched_embeddings indices skip_empty).
Local Abbreviation rows :=
  (rows num_texts batched_embeddings indices skip_empty).
Local Abbreviation weights :=
  (weights num_texts tokens batched_embeddings indices skip_empty).

(** C4, as the code has it.  Where a text has two or more chunks filed
    under it whose embeddings share at least one dimension, a zero sum
    of the chunks' reported lengths, or a weighted average whose every
    component is zero, makes the combination of that text raise
    [ZeroDivisionError], and the whole call raises. *)
Theorem degenerate_aggregation_raises (p : nat) :
  (p < n)%nat →
  (2 ≤ length (members p))%nat →
  (1 ≤ dim (rows p))%nat →
  (sum_int (weights p) = 0
   ∨ ∃ average,
       weighted_average (rows p) (weights p) = Ok average
       ∧ Forall (λ v, (v =? 0)%float = true) average) →
  combine (rows p) (weights p) = Raise ZeroDivisionError
  ∧ ∃ e, _process_batched_chunked_embeddings
           num_texts tokens batched_embeddings indices skip_empty
         = Raise e.
Proof.
  intros Hp Hm Hd Hz.
  assert (Hr : (2 ≤ length (rows p))%nat)
    by (unfold rows; by rewrite length_fmap).
  assert (Hne : rows p ≠ []) by (intros E; rewrite E in Hr; simpl in Hr; lia).
  assert (Hc : combine (rows p) (weights p) = Raise ZeroDivisionError).
  { unfold combine.
    destruct (rows p) as [|r1 [|r2 rs]] eqn:Er; simpl in Hr; try lia.
    destruct Hz as [Hz|(average & Ha & Hz)].
    - by rewrite weighted_average_zero.
    - rewrite Ha. cbn [mbind result_bind bind].
      rewrite normalize_zero; [done| |done].
      apply forM_length in Ha.
      rewrite zip_star_length in Ha by done.
      intros ->. rewrite <- Ha in Hd. simpl in Hd. lia. }
  split; [done|]. rewrite process_spec. case_decide; [|by eexists].
  eapply forM_raise; [|exact Hc]. apply elem_of_seq. lia.
Qed.

End Degenerate.

(* ================================================================== *)
(** ** Which chunks [skip_empty] leaves out                            *)
(* ================================================================== *)

Section SkipEmpty.

Variable num_texts : Z.
Variable tokens : list chunk.
Variable batched_embeddings : list embedding.
Variable indices : list Z.

Local Abbreviation n := (Z.to_nat num_texts).

(** C5, as the code has it.  With [skip_empty] set, the first loop files
    under text [p] exactly the chunks whose origin index denotes [p] and
    whose embedding does not have exactly one component, in the order of
    the chunks.  The reported token length of a chunk plays no part in
    the selection: it is only stored as the weight of a chunk that is
    kept. *)
Theorem skip_empty_by_embedding_length
    results num_tokens_in_batch (p : nat) :
  scatter num_texts tokens batched_embeddings indices true
  = Ok (results, num_tokens_in_batch) →
  (p < n)%nat →
  let considered :=
    filter (λ j, indices !! j ≫= position n = Some p
                 ∧ length (emb_at batched_embeddings j) ≠ 1%nat)
           (seq 0 (length indices)) in
  members num_texts batched_embeddings indices true p = considered
  ∧ results !! p = Some (emb_at batched_embeddings <$> considered)
  ∧ num_tokens_in_batch !! p = Some (len_at tokens <$> considered).
Proof.
  rewrite scatter_spec. case_decide; [|done]. intros [= <- <-] Hp.
  cbn zeta.
  assert (Hm : members num_texts batched_embeddings indices true p
               = filter (λ j, indices !! j ≫= position n = Some p
                              ∧ length (emb_at batched_embeddings j) ≠ 1%nat)
                        (seq 0 (length indices))).
  { unfold members, members_upto. apply list_filter_iff. intros j.
    unfold filed, skipped. simpl.
    by rewrite bool_decide_eq_false. }
  split; [done|]. rewrite <- Hm.
  rewrite !table_lookup, !decide_True by done. done.
Qed.

End SkipEmpty.

Section Counterexamples.

Import Samples.

Local Existing Instance sample_libm.

(** C5, the claim as worded fails: with [skip_empty] set, a chunk of two
    tokens whose embedding has one component is left out, so its text
    gets the sentinel; and a chunk without tokens whose embedding has
    two components is kept. *)
Lemma skip_empty_ignores_token_length :
  _process_batched_chunked_embeddings
    1 [ChunkIds [5; 6]] [[0.5]]%float [0] true = Ok [None]
  ∧ _process_batched_chunked_embeddings
      2 [ChunkIds []; ChunkIds [7]] [[1; 2]; [3]]%float [0; 1] true
    = Ok [Some [1; 2]%float; None].
Proof. by vm_compute. Qed.

(** C4, the claim as worded fails: two chunks of reported length zero
    whose embeddings have no component give a zero total weight and an
    average without components, and the call returns the empty vector. *)
Lemma degenerate_without_dimensions :
  _process_batched_chunked_embeddings
    1 [ChunkText ""; ChunkText ""] [[]; []] [0; 0] false = Ok [Some []].
Proof. by vm_compute. Qed.

(** C6, the claim as worded fails: with [check_embedding_ctx_length]
    off, two texts without tokens are sent as two requests with the
    empty string as input, by [embed_documents] and by
    [aembed_documents]. *)
Lemma unchecked_empty_texts_two_requests :
  token_sequence sample_env_async (sample_embeddings 3 false) "" = Ok []
  ∧ embed_documents sample_env_async (sample_embeddings 3 false)
                    [""; ""] []
    = (Ok [[0; 1]; [0; 1]]%float, [InputText ""; InputText ""])
  ∧ aembed_documents sample_env_async (sample_embeddings 3 false)
                     [""; ""] []
    = (Ok [[1; 0]; [1; 0]]%float, [InputText ""; InputText ""])
  ∧ empty_string_calls [InputText ""; InputText ""] = 2%nat.
Proof. by vm_compute. Qed.

(** C10, the claim as worded fails: with [check_embedding_ctx_length]
    off and an endpoint that answers a text with two embeddings, the
    list of [embed_documents] has two items, of which [embed_query]
    returns the first; likewise for the asynchronous pair. *)
Lemma unchecked_query_first_of_two :
  embed_documents sample_env_pair (sample_embeddings 3 false) ["a"] []
  = (Ok [[1; 0]; [0; 1]]%float, [InputText "a"])
  ∧ embed_query sample_env_pair (sample_embeddings 3 false) "a" []
    = (Ok [1; 0]%float, [InputText "a"])
  ∧ aembed_documents sample_env_pair (sample_embeddings 3 false) ["a"] []
    = (Ok [[0; 1]; [1; 0]]%float, [InputText "a"])
  ∧ aembed_query sample_env_pair (sample_embeddings 3 false) "a" []
    = (Ok [0; 1]%float, [InputText "a"]).
Proof. by vm_compute. Qed.

End Counterexamples.

(* ================================================================== *)
(** ** The theorems at the sample configuration                        *)
(* ================================================================== *)

Section Witnesses.

Import Samples.

Local Existing Instance sample_libm.

Local Abbreviation self3 := (sample_embeddings 3 true).
Local Abbreviation create3 := (create (endpoint [1; 0]%float [0; 1]%float)).
Local Abbreviation out3 :=
  ([[1; 0]; [0; 1]; [0x1.e5b9d136c6d96p-1; 0x1.43d136248490fp-2]]%float).

Lemma aggregate_one_embedding_per_text_witness :
  length out3 = length sample_texts
  ∧ ∃ E, ∀ p, (p < length sample_texts)%nat →
      ∃ o, combine
             (rows (len sample_texts) sample_batched sample_indices
                   (skip_empty self3) p)
             (weights (len sample_texts) sample_tokens sample_batched
                      sample_indices (skip_empty self3) p) = Ok o
           ∧ out3 !! p = Some (default E o).
Proof.
  apply (aggregate_one_embedding_per_text
           self3 create3 sample_texts sample_tokens sample_batched
           sample_indices [] out3 [InputText ""]).
  vm_compute. reflexivity.
Defined.


Lemma single_chunk_verbatim_witness :
  ∃ e, sample_batched !! 0%nat = Some e ∧ out3 !! 0%nat = Some e.
Proof.
  apply (single_chunk_verbatim
           self3 create3 sample_texts sample_tokens sample_batched
           sample_indices [] out3 [InputText ""] 0 0).
  - vm_compute. reflexivity.
  - vm_compute. lia.
  - vm_compute. reflexivity.
Defined.

Lemma degenerate_aggregation_raises_witness :
  combine (rows 1 [[1]; [2]]%float [0; 0] false 0)
          (weights 1 [ChunkText ""; ChunkText ""] [[1]; [2]]%float [0; 0]
                   false 0)
  = Raise ZeroDivisionError
  ∧ ∃ e, _process_batched_chunked_embeddings
           1 [ChunkText ""; ChunkText ""] [[1]; [2]]%float [0; 0] false
         = Raise e.
Proof.
  apply (degenerate_aggregation_raises
           1 [ChunkText ""; ChunkText ""] [[1]; [2]]%float [0; 0] false 0).
  - vm_compute. lia.
  - vm_compute. lia.
  - vm_compute. lia.
  - left. vm_compute. reflexivity.
Defined.

Lemma skip_empty_by_embedding_length_witness :
  let considered :=
    filter (λ j, [0; 1] !! j ≫= position (Z.to_nat 2) = Some 0%nat
                 ∧ length (emb_at [[1; 2]; [3]]%float j) ≠ 1%nat)
           (seq 0 (length [0; 1])) in
  members 2 [[1; 2]; [3]]%float [0; 1] true 0 = considered
  ∧ [[[1; 2]%float]; []] !! 0%nat
    = Some (emb_at [[1; 2]; [3]]%float <$> considered)
  ∧ [[0]; []] !! 0%nat
    = Some (len_at [ChunkIds []; ChunkIds [7]] <$> considered).
Proof.
  apply (skip_empty_by_embedding_length
           2 [ChunkIds []; ChunkIds [7]] [[1; 2]; [3]]%float [0; 1]
           [[[1; 2]%float]; []] [[0]; []] 0).
  - vm_compute. reflexivity.
  - vm_compute. lia.
Defined.

Lemma empty_texts_share_one_request_witness :
  (∃ batches extra,
     [InputBatch sample_tokens; InputText ""] = [] ++ batches ++ extra
     ∧ (empty_string_calls (batches ++ extra) ≤ 1)%nat
     ∧ Forall (λ r, ∃ c, r = InputBatch c) batches
     ∧ (extra = [] ∨ extra = [InputText ""])
     ∧ ∀ (i : nat) text,
         sample_texts !! i = Some text →
         token_sequence sample_env_async self3 text = Ok [] →
         extra = [InputText ""]
         ∧ ∃ r E,
             client sample_env_async ([] ++ batches) (InputText "") = Ok r
             ∧ getitem (data r) 0 = Ok E
             ∧ ([[1; 0]; [0; 1]; [1; 0]]%float) !! i = Some E)
  ∧ (∃ batches extra,
       [InputBatch sample_tokens; InputText ""] = [] ++ batches ++ extra
       ∧ (empty_string_calls (batches ++ extra) ≤ 1)%nat
       ∧ Forall (λ r, ∃ c, r = InputBatch c) batches
       ∧ (extra = [] ∨ extra = [InputText ""])
       ∧ ∀ (i : nat) text,
           sample_texts !! i = Some text →
           token_sequence sample_env_async self3 text = Ok [] →
           extra = [InputText ""]
           ∧ ∃ r E,
               async_client sample_env_async ([] ++ batches) (InputText "") = Ok r
               ∧ getitem (data r) 0 = Ok E
               ∧ ([[0; 1]; [1; 0]; [0; 1]]%float) !! i = Some E)
  ∧ (∃ batches extra,
       [InputText ""] = [] ++ batches ++ extra
       ∧ (empty_string_calls (batches ++ extra) ≤ 1)%nat
       ∧ Forall (λ r, ∃ c, r = InputBatch c) batches
       ∧ (extra = [] ∨ extra = [InputText ""])
       ∧ (token_sequence sample_env_async self3 "" = Ok [] →
          extra = [InputText ""]
          ∧ ∃ r,
              client sample_env_async ([] ++ batches) (InputText "") = Ok r
              ∧ getitem (data r) 0 = Ok ([0; 1]%float)))
  ∧ (∃ batches extra,
       [InputText ""] = [] ++ batches ++ extra
       ∧ (empty_string_calls (batches ++ extra) ≤ 1)%nat
       ∧ Forall (λ r, ∃ c, r = InputBatch c) batches
       ∧ (extra = [] ∨ extra = [InputText ""])
       ∧ (token_sequence sample_env_async self3 "" = Ok [] →
          extra = [InputText ""]
          ∧ ∃ r,
              async_client sample_env_async ([] ++ batches) (InputText "") = Ok r
              ∧ getitem (data r) 0 = Ok ([1; 0]%float))).
Proof.
  pose proof (empty_texts_share_one_request sample_env_async self3 eq_refl)
    as [Hdocs Hquery].
  split; [|split; [|split]].
  - apply (Hdocs false sample_texts [] ([[1; 0]; [0; 1]; [1; 0]]%float)
                 [InputBatch sample_tokens; InputText ""]).
    vm_compute. reflexivity.
  - apply (Hdocs true sample_texts [] ([[0; 1]; [1; 0]; [0; 1]]%float)
                 [InputBatch sample_tokens; InputText ""]).
    vm_compute. reflexivity.
  - apply (Hquery false "" [] ([0; 1]%float) [InputText ""]).
    vm_compute. reflexivity.
  - apply (Hquery true "" [] ([1; 0]%float) [InputText ""]).
    vm_compute. reflexivity.
Defined.


Lemma embed_query_first_document_witness :
  (∃ e, [[1; 0]%float] = [e]
        ∧ embed_query sample_env_async self3 "a" []
          = (Ok e, [InputBatch [ChunkIds [97]]]))
  ∧ (∃ e, [[0; 1]%float] = [e]
          ∧ aembed_query sample_env_async self3 "a" []
            = (Ok e, [InputBatch [ChunkIds [97]]]))
  ∧ (∃ r, client sample_env_pair [] (InputText "a") = Ok r
          ∧ [[1; 0]; [0; 1]]%float = data r
          ∧ [InputText "a"] = [] ++ [InputText "a"]
          ∧ embed_query sample_env_pair (sample_embeddings 3 false) "a" []
            = (getitem (data r) 0, [InputText "a"]))
  ∧ (∃ r, async_client sample_env_pair [] (InputText "a") = Ok r
          ∧ [[0; 1]; [1; 0]]%float = data r
          ∧ [InputText "a"] = [] ++ [InputText "a"]
          ∧ aembed_query sample_env_pair (sample_embeddings 3 false) "a" []
            = (getitem (data r) 0, [InputText "a"])).
Proof.
  pose proof (embed_query_first_document sample_env_async self3 "a" [])
    as (_ & _ & Hsync & Hasync & _).
  pose proof (embed_query_first_document
                sample_env_pair (sample_embeddings 3 false) "a" [])
    as (_ & _ & _ & _ & Hsync' & Hasync').
  split; [|split; [|split]].
  - apply (Hsync eq_refl [[1; 0]%float] [InputBatch [ChunkIds [97]]]).
    vm_compute. reflexivity.
  - apply (Hasync eq_refl [[0; 1]%float] [InputBatch [ChunkIds [97]]]).
    vm_compute. reflexivity.
  - apply (Hsync' eq_refl ([[1; 0]; [0; 1]]%float) [InputText "a"]).
    vm_compute. reflexivity.
  - apply (Hasync' eq_refl ([[0; 1]; [1; 0]]%float) [InputText "a"]).
    vm_compute. reflexivity.
Defined.

End Witnesses.

(* ================================================================== *)
(** ** Completions: error responses and streaming                      *)
(* ================================================================== *)

Section Completions.

Import Llms.

Variable env : Llms.environment.
Variable self : BaseCompressaLLM.

(** With two prompts or more and batches of two or more, the first
    sub-list of prompts has two prompts or more. *)
Lemma sub_prompts_head params0 (prompts : list string) stop params subs :
  get_sub_prompts self params0 prompts stop = Ok (params, subs) →
  (2 ≤ length prompts)%nat → 2 ≤ batch_size self →
  ∃ first rest, subs = first :: rest ∧ 1 < len first.
Proof.
  unfold get_sub_prompts. intros H Hp Hb.
  apply bind_ok in H as (p1 & _ & H).
  apply bind_ok in H as (mt & _ & H).
  apply bind_ok in H as (p2 & _ & H).
  apply bind_ok in H as (starts & Hs & [= <- <-]).
  unfold range_step in Hs.
  destruct (Z.eqb_spec (batch_size self) 0); [lia|].
  destruct (Z.ltb_spec (batch_size self) 0); [lia|].
  injection Hs as <-.
  assert (Hq : 1 ≤ (len prompts + batch_size self - 1) / batch_size self).
  { apply Z.div_le_lower_bound; unfold len; lia. }
  destruct (Z.to_nat _) as [|k] eqn:Ek; [lia|].
  cbn [seq fmap list_fmap]. eexists _, _. split; [done|].
  change (Z.of_nat 0 * batch_size self) with (Z.of_nat 0).
  replace (Z.of_nat 0 + batch_size self)
    with (Z.of_nat (Z.to_nat (batch_size self))) by lia.
  rewrite slice_nat by lia. unfold len.
  rewrite length_take, length_drop. lia.
Qed.

(** The streaming branch gives up on a sub-list of several prompts
    without a request. *)
Lemma stream_choice_many stream _prompts stop kw (log : list request) :
  1 < len _prompts →
  stream_choice env stream _prompts stop kw log
  = (Raise (ValueError "Cannot stream results with multiple prompts."),
     log).
Proof.
  intros H. unfold stream_choice.
  by destruct (Z.ltb_spec 1 (len _prompts)); [|lia].
Qed.

(** C9, as the code has it.  A streaming object with [n > 1] or
    [best_of > 1] is rejected by [validate_environment].  A streaming
    call with two prompts or more is rejected before any request where
    the batch size is two or more: the first sub-list then has several
    prompts; the log of requests is left as it was. *)
Theorem streaming_rejections :
  streaming self = true →
  ((1 < n self ∨ 1 < best_of self) →
   ∃ msg, validate_environment env self = Raise (ValueError msg))
  ∧ ∀ (prompts : list string) stop kw log,
      (2 ≤ length prompts)%nat → 2 ≤ batch_size self →
      (∃ e, _generate env self prompts stop kw log = (Raise e, log))
      ∧ (∃ e, _agenerate env self prompts stop kw log = (Raise e, log)).
Proof.
  intros Hs. split.
  - intros Hn. unfold validate_environment. rewrite Hs. simpl.
    destruct (n self <? 1); [by eexists|].
    destruct (Z.ltb_spec 1 (n self)); [by eexists|].
    destruct (Z.ltb_spec 1 (best_of self)); [by eexists|]. lia.
  - intros prompts stop kw log Hp Hb.
    unfold _generate, _agenerate. cbn zeta. rewrite !bind_run, !lift_run.
    destruct (get_sub_prompts _ _ _ _) as [[params subs]|e] eqn:E;
      [|by eauto].
    destruct (sub_prompts_head _ _ _ _ _ E Hp Hb)
      as (first & rest & -> & Hf).
    cbn [foldS]. rewrite !bind_run, Hs, !bind_run.
    rewrite !stream_choice_many by done. eauto.
Qed.

(** Without streaming and with one batch, [_generate] raises the error
    a response carries; [_agenerate] goes on to the choices. *)
Lemma generate_error_response
    (prompts : list string) stop kw log params _prompts r :
  streaming self = false →
  get_sub_prompts self (kw ∪ _invocation_params self) prompts stop
  = Ok (params, [_prompts]) →
  client env log (Create _prompts params) = Ok r →
  async_client env log (Create _prompts params) = Ok r →
  truthy (error r) = true →
  _generate env self prompts stop kw log
  = (Raise (ValueError (default "" (error r))),
     log ++ [Create _prompts params])
  ∧ _agenerate env self prompts stop kw log
    = (cs ← match choices r with
            | Some cs => Ok cs
            | None => Raise TypeError
            end;
       token_usage ← _update_token_usage _keys r ∅;
       create_llm_result self cs prompts params token_usage None,
       log ++ [Create _prompts params]).
Proof.
  intros Hs Hg Hc Ha Ht. unfold _generate, _agenerate. cbn zeta.
  rewrite !bind_run, !lift_run, Hg. cbn beta iota.
  cbn [foldS]. rewrite !bind_run, Hs, !bind_run, !create_run, Hc, Ha, Ht.
  split; [done|].
  destruct (choices r) as [cs|]; [|done]. unfold_M.
  destruct (_update_token_usage _keys r ∅) as [tu|e]; [|done]. done.
Qed.

End Completions.

Section CompletionSamples.

Import Llms Samples.

(** C8, where the code departs from the claim.  The response carries an
    error.  The synchronous call raises it; the asynchronous call does
    not look at the error field: with choices in the response it returns
    a result built from them, and without choices it raises [TypeError]
    in place of the error. *)
Theorem agenerate_overlooks_error_field :
  (_generate (sample_llm_env (error_response (Some [sample_choice])))
             (sample_llm false 20) ["p"] None ∅ []).1
  = Raise (ValueError "model overloaded")
  ∧ generations
      <$> (_agenerate (sample_llm_env (error_response (Some [sample_choice])))
                      (sample_llm false 20) ["p"] None ∅ []).1
    = Ok [[{| gen_text := "fine"; gen_info := (Some "stop", None) |}]]
  ∧ (_agenerate (sample_llm_env (error_response None))
                (sample_llm false 20) ["p"] None ∅ []).1
    = Raise TypeError.
Proof. by vm_compute. Qed.

(** C9, the claim as worded fails: with a batch size of one, a
    streaming call with two prompts issues one request per prompt and
    returns a generation for each. *)
Lemma streaming_two_prompts_batch_size_one :
  let '(r, log) :=
    _generate (sample_llm_env (error_response None)) (sample_llm true 1)
              ["a"; "b"] None ∅ [] in
  generations <$> r
  = Ok [[{| gen_text := "fine"; gen_info := (Some "stop", None) |}];
        [{| gen_text := "fine"; gen_info := (Some "stop", None) |}]]
  ∧ (λ req, match req with
            | CreateStream prompt _ => prompt
            | Create _ _ => ""
            end) <$> log = ["a"; "b"].
Proof. by vm_compute. Qed.

Lemma streaming_rejections_witness :
  ((1 < n (sample_llm true 20) ∨ 1 < best_of (sample_llm true 20)) →
   ∃ msg, validate_environment (sample_llm_env (error_response None))
                               (sample_llm true 20)
          = Raise (ValueError msg))
  ∧ ∀ (prompts : list string) stop kw log,
      (2 ≤ length prompts)%nat → 2 ≤ batch_size (sample_llm true 20) →
      (∃ e, _generate (sample_llm_env (error_response None))
                      (sample_llm true 20) prompts stop kw log
            = (Raise e, log))
      ∧ (∃ e, _agenerate (sample_llm_env (error_response None))
                         (sample_llm true 20) prompts stop kw log
              = (Raise e, log)).
Proof.
  apply (streaming_rejections (sample_llm_env (error_response None))
                              (sample_llm true 20)).
  reflexivity.
Defined.

End CompletionSamples.

(* ================================================================== *)
(** ** Cutting a list into windows                                     *)
(* ================================================================== *)

Section Windows.

Context {A : Type}.

(** [[l[j : j + c] for j in range(0, len(l), c)]] for a positive [c]. *)
Lemma windows_spec (l : list A) (c : Z) (js : list Z) :
  0 < c → range_step (len l) c = Ok js →
  (λ j, slice l j (j + c)) <$> js
  = (λ q, take (Z.to_nat c) (drop (q * Z.to_nat c) l))
      <$> seq 0 (Z.to_nat ((len l + c - 1) / c)).
Proof.
  intros Hc. unfold range_step.
  destruct (Z.eqb_spec c 0); [lia|]. destruct (Z.ltb_spec c 0); [lia|].
  intros [= <-]. rewrite <- list_fmap_compose.
  apply list_fmap_ext. intros _ q _. simpl.
  assert (E : c = Z.of_nat (Z.to_nat c)) by lia.
  revert E. generalize (Z.to_nat c). intros c' ->.
  replace (Z.of_nat q * Z.of_nat c') with (Z.of_nat (q * c')) by lia.
  replace (Z.of_nat (q * c') + Z.of_nat c')
    with (Z.of_nat (q * c' + c')) by lia.
  rewrite slice_nat by lia. f_equal. lia.
Qed.

(** The windows put together give the list back; none is empty and none
    is longer than [c]. *)
Lemma windows_partition (l : list A) (c : Z) (js : list Z) :
  0 < c → range_step (len l) c = Ok js →
  concat ((λ j, slice l j (j + c)) <$> js) = l
  ∧ Forall (λ w, 1 ≤ len w ≤ c) ((λ j, slice l j (j + c)) <$> js)
  ∧ len js = (len l + c - 1) / c.
Proof.
  intros Hc Hjs. rewrite (windows_spec l c js Hc Hjs).
  assert (Hn : len js = (len l + c - 1) / c).
  { unfold range_step in Hjs.
    destruct (Z.eqb_spec c 0); [lia|]. destruct (Z.ltb_spec c 0); [lia|].
    injection Hjs as <-. unfold len. rewrite length_fmap, length_seq.
    apply Z2Nat.id, Z.div_pos; unfold len; lia. }
  pose proof (Z.mul_div_le (len l + c - 1) c Hc) as Hlo.
  pose proof (Z.mul_succ_div_gt (len l + c - 1) c Hc) as Hhi.
  set (d := (len l + c - 1) / c) in *.
  assert (Hd : 0 ≤ d) by (apply Z.div_pos; unfold len; lia).
  unfold len in Hlo, Hhi.
  split; [|split; [|done]].
  - rewrite concat_windows, take_ge; [done|]. nia.
  - apply Forall_fmap, Forall_forall. intros q Hq%elem_of_seq. simpl.
    unfold len. rewrite length_take, length_drop. nia.
Qed.

End Windows.

(* ================================================================== *)
(** ** Completions: batches, token usage and results                   *)
(* ================================================================== *)

Lemma concat_fmap_fmap {A B C} (g : B → C) (w : A → list B) (l : list A) :
  concat ((λ i, g <$> w i) <$> l) = g <$> concat (w <$> l).
Proof.
  induction l as [|x l IH]; [done|].
  rewrite !fmap_cons. cbn [concat]. by rewrite fmap_app, IH.
Qed.

Lemma forM_pure {A B} (g : A → B) (l : list A) :
  forM (λ x, Ok (g x)) l = Ok (g <$> l).
Proof. induction l as [|x l IH]; [done|]. cbn [forM]. by rewrite IH. Qed.

Section Batches.

Import Llms.

Variable env : Llms.environment.
Variable self : BaseCompressaLLM.

(** What a returning [get_sub_prompts] has done to [params] and how it
    has cut the prompts. *)
Lemma sub_prompts_ok params (prompts : list string) stop params' subs :
  get_sub_prompts self params prompts stop = Ok (params', subs) →
  params' = match stop with
            | Some s => <["stop" := VStrs s]> params
            | None => params
            end
  ∧ (match stop with Some _ => params !! "stop" = None | None => True end)
  ∧ ∃ starts,
      range_step (len prompts) (batch_size self) = Ok starts
      ∧ subs = (λ i, slice prompts i (i + batch_size self)) <$> starts.
Proof.
  unfold get_sub_prompts. intros H.
  apply bind_ok in H as (p1 & H1 & H).
  apply bind_ok in H as (mt & _ & H).
  apply bind_ok in H as (p2 & H2 & H).
  apply bind_ok in H as (starts & Hs & [= <- <-]).
  destruct (eq_int mt (-1)); [by destruct (negb _)|]. injection H2 as <-.
  split; [|split; [|by eauto]].
  - destruct stop; [case_decide; [done|]|]; by injection H1 as <-.
  - destruct stop; [|done]. case_decide as Hn; [done|].
    by apply eq_None_not_Some.
Qed.

(** X10.  The sub-lists of prompts put together give the prompts back, in
    order; with a positive batch size none is empty and none is longer
    than the batch size.  The stop words given with the call are added
    to the parameters. *)
Theorem sub_prompts_partition params (prompts : list string) stop params' subs :
  0 < batch_size self →
  get_sub_prompts self params prompts stop = Ok (params', subs) →
  concat subs = prompts
  ∧ Forall (λ s, 1 ≤ len s ≤ batch_size self) subs
  ∧ len subs = (len prompts + batch_size self - 1) / batch_size self
  ∧ params' = match stop with
              | Some s => <["stop" := VStrs s]> params
              | None => params
              end.
Proof.
  intros Hb (-> & _ & starts & Hs & ->)%sub_prompts_ok.
  destruct (windows_partition prompts _ starts Hb Hs) as (Hc & Hf & Hl).
  split; [done|]. split; [done|]. split; [|done].
  unfold len in *. by rewrite length_fmap.
Qed.

(** [_update_token_usage] over keys without repetition. *)
Lemma usage_fold (u : gmap string Z) (ks : list string)
    (tu : gmap string Z) (k : string) :
  NoDup ks →
  foldl (λ (tu : gmap string Z) _key,
           match tu !! _key with
           | None => <[_key := default 0 (u !! _key)]> tu
           | Some v => <[_key := v + default 0 (u !! _key)]> tu
           end) tu ks !! k
  = if decide (k ∈ ks)
    then Some (default 0 (tu !! k) + default 0 (u !! k))
    else tu !! k.
Proof.
  intros Hnd. revert tu.
  induction Hnd as [|key ks Hnotin _ IH]; intros tu; cbn [foldl].
  - by rewrite decide_False by apply not_elem_of_nil.
  - rewrite IH. destruct (decide (k = key)) as [->|Hne].
    + rewrite decide_False by done. rewrite decide_True by left.
      destruct (tu !! key) as [v|]; by rewrite lookup_insert_eq.
    + assert (Hk : (match tu !! key with
                    | None => <[key := default 0 (u !! key)]> tu
                    | Some v => <[key := v + default 0 (u !! key)]> tu
                    end) !! k = tu !! k).
      { destruct (tu !! key); by rewrite lookup_insert_ne. }
      rewrite Hk.
      destruct (decide (k ∈ ks)) as [Hin|Hin].
      * by rewrite decide_True by (by right).
      * rewrite decide_False; [done|]. by intros [?|?]%elem_of_cons.
Qed.

(** X11.  Every key of [keys] that the response's usage has is added to the
    running total (or set, where the total has no such key yet); no
    other key of the total changes. *)
Theorem update_token_usage_adds
    (keys : list string) resp (u tu : gmap string Z) :
  NoDup keys →
  usage resp = Some u →
  ∃ tu',
    _update_token_usage keys resp tu = Ok tu'
    ∧ ∀ k, tu' !! k
           = if decide (k ∈ keys ∧ is_Some (u !! k))
             then Some (default 0 (tu !! k) + default 0 (u !! k))
             else tu !! k.
Proof.
  intros Hnd Hu. unfold _update_token_usage. rewrite Hu.
  eexists. split; [done|]. intros k.
  rewrite usage_fold by (by apply NoDup_filter).
  destruct (decide (k ∈ filter _ keys)) as [Hin|Hin].
  - apply list_elem_of_filter in Hin as [? ?]. by rewrite decide_True.
  - rewrite decide_False; [done|]. intros [? ?]. apply Hin.
    by apply list_elem_of_filter.
Qed.

(** X12.  Where every prompt has got [k] choices, the result has one list of
    generations per prompt, each of [k] generations, and the lists put
    together are the choices in their order. *)
Theorem llm_result_groups
    (choices : list choice) (prompts : list string) params tu fp (k : Z) :
  default (VInt (n self)) (params !! "n") = VInt k →
  0 ≤ k →
  len choices = k * len prompts →
  ∃ res,
    create_llm_result self choices prompts params tu fp = Ok res
    ∧ length (generations res) = length prompts
    ∧ Forall (λ g, len g = k) (generations res)
    ∧ concat (generations res)
      = (λ c, {| gen_text := text c;
                 gen_info := (finish_reason c, logprobs c) |}) <$> choices
    ∧ token_usage res = tu.
Proof.
  intros Hn Hk Hlen. unfold create_llm_result. cbn zeta. rewrite Hn.
  rewrite (forM_ext _ (λ i, Ok ((λ c, {| gen_text := text c;
                                         gen_info := (finish_reason c,
                                                      logprobs c) |})
                                  <$> slice choices (i * k) ((i + 1) * k))))
    by done.
  rewrite forM_pure. cbn [mbind result_bind bind].
  eexists. split; [done|]. cbn [generations token_usage].
  assert (E : k = Z.of_nat (Z.to_nat k)) by lia.
  revert E Hlen. generalize (Z.to_nat k). intros k' -> Hlen.
  unfold range, len in *. rewrite Nat2Z.id, <- list_fmap_compose.
  assert (Hw : ∀ i : nat,
             slice choices (Z.of_nat i * Z.of_nat k')
                   ((Z.of_nat i + 1) * Z.of_nat k')
             = take k' (drop (i * k') choices)).
  { intros i.
    replace (Z.of_nat i * Z.of_nat k') with (Z.of_nat (i * k')) by lia.
    replace ((Z.of_nat i + 1) * Z.of_nat k')
      with (Z.of_nat (i * k' + k')) by lia.
    rewrite slice_nat by lia. f_equal. lia. }
  split; [by rewrite length_fmap, length_seq|]. split.
  - apply Forall_fmap, Forall_forall. intros i Hi%elem_of_seq. simpl.
    rewrite length_fmap, Hw, length_take, length_drop. nia.
  - erewrite list_fmap_ext.
    2:{ intros _ i _. simpl. rewrite Hw. reflexivity. }
    rewrite (concat_fmap_fmap _ (λ i, take k' (drop (i * k') choices))).
    rewrite concat_windows, take_ge; [done|]. nia.
Qed.

End Batches.

Section Generate.

Import Llms.

Variable env : Llms.environment.
Variable self : BaseCompressaLLM.

(** The loop of [_generate] without streaming: one request per sub-list
    of prompts, and every answer was free of an error and had choices
    and usage. *)
Lemma generate_loop params (stop : option (list string)) (kw : kwargs)
    (subs : list (list string)) acc log acc' log' :
  streaming self = false →
  foldS (λ '(choices, token_usage, system_fingerprint) _prompts,
           if streaming self then
             c ← stream_choice env (_stream env self) _prompts stop kw;
             mret (choices ++ [c], token_usage, system_fingerprint)
           else
             response ← create (client env) (Create _prompts params);
             if truthy (error response)
             then lift (Raise (ValueError (default "" (error response))))
             else
               cs ← lift (match Llms.choices response with
                          | Some cs => Ok cs
                          | None => Raise TypeError
                          end);
               token_usage' ←
                 lift (_update_token_usage _keys response token_usage);
               mret (choices ++ cs, token_usage',
                     match system_fingerprint with
                     | Some s => if decide (s = "")
                                 then Llms.system_fingerprint response
                                 else Some s
                     | None => Llms.system_fingerprint response
                     end))
        subs acc log = (Ok acc', log') →
  log' = log ++ ((λ s, Create s params) <$> subs)
  ∧ ∀ (i : nat) s, subs !! i = Some s →
      ∃ r, client env (log ++ ((λ s, Create s params) <$> take i subs))
                  (Create s params) = Ok r
           ∧ truthy (error r) = false
           ∧ is_Some (choices r)
           ∧ is_Some (usage r).
Proof.
  intros Hs. rewrite Hs. cbn beta iota. revert acc log.
  induction subs as [|s subs IH]; intros [[cs0 tu0] fp0] log; cbn [foldS].
  - intros [= _ <-]. rewrite app_nil_r. split; [done|]. by intros i s.
  - rewrite !bind_run, create_run.
    destruct (client env log (Create s params)) as [r|e] eqn:Er; [|done].
    destruct (truthy (error r)) eqn:Et; [by rewrite lift_run|].
    rewrite bind_run, lift_run.
    destruct (choices r) as [cs|] eqn:Ec; [|done].
    rewrite bind_run, lift_run.
    destruct (_update_token_usage _keys r tu0) as [tu'|e] eqn:Eu; [|done].
    rewrite mret_run. intros [-> Hall]%IH. split.
    + by rewrite fmap_cons, <- app_assoc.
    + intros [|i] s' Hs'.
      * injection Hs' as <-. simpl. rewrite app_nil_r. exists r.
        split; [done|]. split; [done|]. split; [by rewrite Ec|].
        unfold _update_token_usage in Eu. by destruct (usage r).
      * destruct (Hall i s' Hs') as (r' & Hr' & ?).
        exists r'. split; [|done].
        by rewrite firstn_cons, fmap_cons, cons_middle, app_assoc.
Qed.

(** X13.  A returning [_generate] without streaming has sent one request per
    sub-list of prompts, in order and all with the same parameters, and
    every answer it got was free of an error and had choices and
    usage. *)
Theorem generate_one_request_per_batch
    (prompts : list string) stop kw log res log' :
  streaming self = false →
  _generate env self prompts stop kw log = (Ok res, log') →
  ∃ params subs,
    get_sub_prompts self (kw ∪ _invocation_params self) prompts stop
    = Ok (params, subs)
    ∧ log' = log ++ ((λ s, Create s params) <$> subs)
    ∧ ∀ (i : nat) s, subs !! i = Some s →
        ∃ r, client env (log ++ ((λ s, Create s params) <$> take i subs))
                    (Create s params) = Ok r
             ∧ truthy (error r) = false
             ∧ is_Some (choices r)
             ∧ is_Some (usage r).
Proof.
  intros Hs. unfold _generate. cbn zeta. rewrite bind_run, lift_run.
  destruct (get_sub_prompts _ _ _ _) as [[params subs]|e]; [|done].
  cbn beta iota. rewrite bind_run.
  destruct (foldS _ _ _ _) as [[acc'|e] lg] eqn:Ef; [|done].
  apply generate_loop in Ef as [-> Hall]; [|done].
  destruct acc' as [[cs tu] fp]. rewrite lift_run. intros [= _ <-].
  by exists params, subs.
Qed.

(** X14.  [_agenerate] never reports a system fingerprint. *)
Theorem agenerate_no_system_fingerprint
    (prompts : list string) stop kw log res log' :
  _agenerate env self prompts stop kw log = (Ok res, log') →
  llm_system_fingerprint res = None.
Proof.
  unfold _agenerate. cbn zeta. rewrite bind_run, lift_run.
  destruct (get_sub_prompts _ _ _ _) as [[params subs]|e]; [|done].
  cbn beta iota. rewrite bind_run.
  destruct (foldS _ _ _ _) as [[[cs tu]|e] lg]; [|done].
  rewrite lift_run. intros [= H _]. unfold create_llm_result in H.
  by apply bind_ok in H as (k & _ & [= <-]).
Qed.


End Generate.

(* ================================================================== *)
(** ** The chunk plan of any text                                      *)
(* ================================================================== *)

Lemma plan_sorted (s : nat) (pss : list (list (list Z))) (i j : nat) x o y o' :
  (i ≤ j)%nat →
  plan s pss !! i = Some (x, o) → plan s pss !! j = Some (y, o') →
  (o ≤ o')%nat.
Proof.
  revert s i j. induction pss as [|ps pss IH]; intros s i j Hij; simpl.
  - done.
  - intros Hi Hj.
    apply lookup_app_Some in Hi as [Hi|[Hli Hi]];
      apply lookup_app_Some in Hj as [Hj|[Hlj Hj]].
    + apply list_elem_of_lookup_2, list_elem_of_fmap in Hi as (? & [= _ ->] & _).
      apply list_elem_of_lookup_2, list_elem_of_fmap in Hj as (? & [= _ ->] & _).
      done.
    + apply list_elem_of_lookup_2, list_elem_of_fmap in Hi as (? & [= _ ->] & _).
      apply list_elem_of_lookup_2, plan_origin in Hj as [Hj _]. lia.
    + apply lookup_lt_Some in Hj. lia.
    + eapply (IH (S s)); [|exact Hi|exact Hj]. lia.
Qed.

Section ChunkPlan.

Variable env : environment.
Variable self : CompressaEmbeddings.

Local Abbreviation L := (embedding_ctx_length self).

(** A returning [_tokenize] has loaded the tokenizer and followed the
    plan. *)
Lemma tokenize_ok_plan (texts : list string) cs _iter tokens indices :
  _tokenize env self texts cs = Ok (_iter, tokens, indices) →
  ∃ encode_ wrap pss,
    text_encoder env self = Ok (encode_, wrap)
    ∧ Forall2 (λ text ps, encode_ text ≫= pieces self = Ok ps) texts pss
    ∧ tokens = (wrap ∘ fst) <$> plan 0 pss
    ∧ indices = (Z.of_nat ∘ snd) <$> plan 0 pss.
Proof.
  intros H. destruct (text_encoder env self) as [[enc wrap]|e] eqn:He.
  - destruct (tokenize_plan _ _ _ _ _ _ _ _ _ H He) as (pss & ? & ? & ? & _).
    by exists enc, wrap, pss.
  - by rewrite tokenize_unfold, He in H.
Qed.

(** Where the chunks of one text stand. *)
Lemma tokenize_text_segment
    (texts : list string) cs _iter tokens indices encode_ wrap
    (p : nat) text token :
  _tokenize env self texts cs = Ok (_iter, tokens, indices) →
  text_encoder env self = Ok (encode_, wrap) →
  texts !! p = Some text →
  encode_ text = Ok token →
  ∃ (m : nat) ps,
    pieces self token = Ok ps
    ∧ (∀ q piece, ps !! q = Some piece →
         tokens !! (m + q)%nat = Some (wrap piece)
         ∧ indices !! (m + q)%nat = Some (Z.of_nat p))
    ∧ (∀ j, indices !! j = Some (Z.of_nat p) →
         (m ≤ j < m + length ps)%nat).
Proof.
  intros Htok Henc Htext Het.
  destruct (tokenize_plan _ _ _ _ _ _ _ _ _ Htok Henc)
    as (pss & HF & -> & -> & _).
  destruct (Forall2_lookup_l _ _ _ _ _ HF Htext) as (ps & Hps & Hp).
  rewrite Het in Hp. simpl in Hp.
  destruct (plan_middle pss p ps Hps) as (-> & Hpre & Hpost).
  set (pre := plan 0 (take p pss)) in *.
  set (post := plan (S p) (drop (S p) pss)) in *.
  exists (length pre), ps. split; [done|]. split.
  - intros q piece Hq.
    assert (Hat : (pre ++ ((λ piece, (piece, p)) <$> ps) ++ post)
                    !! (length pre + q)%nat = Some (piece, p)).
    { rewrite lookup_app_r by lia.
      replace (length pre + q - length pre)%nat with q by lia.
      apply lookup_app_l_Some. by rewrite list_lookup_fmap, Hq. }
    by rewrite !list_lookup_fmap, Hat.
  - intros j. rewrite list_lookup_fmap.
    destruct ((pre ++ _ ++ post) !! j) as [[x o]|] eqn:Hj; [|done].
    simpl. intros [= Ho]. apply Nat2Z.inj in Ho as ->.
    apply lookup_app_Some in Hj as [Hj|[Hle Hj]].
    { apply list_elem_of_lookup_2, Hpre in Hj. lia. }
    split; [done|].
    apply lookup_app_Some in Hj as [Hj|[Hle' Hj]].
    { apply lookup_lt_Some in Hj. rewrite length_fmap in Hj. lia. }
    apply list_elem_of_lookup_2, Hpost in Hj. lia.
Qed.

(** X1.  With a context length of one or more, the chunks of a text are
    slices of its token sequence that put together give the sequence
    back: no token is lost, repeated or moved; no chunk is empty and
    none is longer than the context length; they stand next to each
    other in the chunk list with the ordinal of the text as origin
    index, and no other chunk has that origin. *)
Theorem tokenize_chunks_partition
    (texts : list string) cs _iter tokens indices encode_ wrap
    (p : nat) text token :
  _tokenize env self texts cs = Ok (_iter, tokens, indices) →
  text_encoder env self = Ok (encode_, wrap) →
  texts !! p = Some text →
  encode_ text = Ok token →
  1 ≤ L →
  ∃ (m : nat) (slices : list (list Z)),
    concat slices = token
    ∧ Forall (λ piece, 1 ≤ len piece ≤ L) slices
    ∧ len slices = (len token + L - 1) / L
    ∧ (∀ q piece, slices !! q = Some piece →
         tokens !! (m + q)%nat = Some (wrap piece)
         ∧ indices !! (m + q)%nat = Some (Z.of_nat p))
    ∧ (∀ j, indices !! j = Some (Z.of_nat p) →
         (m ≤ j < m + length slices)%nat).
Proof.
  intros Htok Henc Htext Het HL.
  destruct (tokenize_text_segment _ _ _ _ _ _ _ _ _ _ Htok Henc Htext Het)
    as (m & ps & Hps & Hat & Honly).
  exists m, ps. unfold pieces in Hps.
  apply bind_ok in Hps as (js & Hjs & [= <-]).
  destruct (windows_partition token L js) as (Hc & Hf & Hl); [lia|done|].
  split; [done|]. split; [done|]. split; [|done].
  unfold len in *. by rewrite length_fmap.
Qed.

Lemma indices_invariant
    (texts : list string) cs _iter tokens indices :
  _tokenize env self texts cs = Ok (_iter, tokens, indices) →
  length tokens = length indices
  ∧ Forall (λ k, 0 ≤ k < len texts) indices
  ∧ ∀ (i j : nat) a b,
      (i ≤ j)%nat → indices !! i = Some a → indices !! j = Some b → a ≤ b.
Proof.
  intros (enc & wrap & pss & _ & HF & -> & ->)%tokenize_ok_plan.
  apply Forall2_length in HF.
  split; [by rewrite !length_fmap|]. split.
  - apply Forall_fmap, Forall_forall. intros [x o] [Ho _]%plan_origin.
    simpl. unfold len. lia.
  - intros i j a b Hij. rewrite !list_lookup_fmap.
    destruct (plan 0 pss !! i) as [[x o]|] eqn:Hi; [|done].
    destruct (plan 0 pss !! j) as [[y o']|] eqn:Hj; [|done].
    simpl. intros [= <-] [= <-].
    pose proof (plan_sorted 0 pss i j x o y o' Hij Hi Hj). lia.
Qed.

(** X2.  The chunk list and the list of origin indices have the same length;
    every origin index is the ordinal of a text; and the origin indices
    never decrease: the chunks stand in the order of the texts. *)
Theorem tokenize_indices_invariant
    (texts : list string) cs _iter tokens indices :
  _tokenize env self texts cs = Ok (_iter, tokens, indices) →
  length tokens = length indices
  ∧ Forall (λ k, 0 ≤ k < len texts) indices
  ∧ ∀ (i j : nat) a b,
      (i ≤ j)%nat → indices !! i = Some a → indices !! j = Some b → a ≤ b.
Proof. apply indices_invariant. Qed.

(** X3.  With a negative context length no chunk is made, whatever the
    texts: [range(0, len(token), L)] is empty for every text. *)
Theorem tokenize_negative_context
    (texts : list string) cs _iter tokens indices :
  L < 0 →
  _tokenize env self texts cs = Ok (_iter, tokens, indices) →
  tokens = [] ∧ indices = [] ∧ _iter = [].
Proof.
  intros HL Htok.
  pose proof (tokenize_iter _ _ _ _ _ _ _ Htok) as Hit.
  apply tokenize_ok_plan in Htok as (enc & wrap & pss & _ & HF & -> & ->).
  assert (Hp : ∀ s, plan s pss = []).
  { clear Hit. induction HF as [|text ps texts pss Hps _ IH]; intros s;
      [done|].
    simpl. rewrite IH, app_nil_r.
    apply bind_ok in Hps as (token & _ & Hps). unfold pieces in Hps.
    apply bind_ok in Hps as (js & Hjs & [= <-]).
    unfold range_step in Hjs.
    destruct (Z.eqb_spec L 0); [lia|]. destruct (Z.ltb_spec L 0); [|lia].
    by injection Hjs as <-. }
  rewrite Hp in *. split; [done|]. split; [done|].
  unfold range_step, len in Hit. simpl in Hit.
  destruct (Z.eqb_spec cs 0); [done|].
  destruct (Z.ltb_spec cs 0); [by injection Hit|].
  rewrite Z.div_small in Hit by lia. by injection Hit.
Qed.

End ChunkPlan.

(* ================================================================== *)
(** ** Subscripts, sentinels and dimensions of the aggregation         *)
(* ================================================================== *)

Lemma position_None (n : nat) (k : Z) :
  position n k = None ↔ ¬ (- Z.of_nat n ≤ k < Z.of_nat n).
Proof.
  unfold position.
  destruct (Z.ltb_spec k 0);
    destruct (Z.leb_spec 0 (k + Z.of_nat n));
    destruct (Z.leb_spec 0 k);
    destruct (Z.ltb_spec (k + Z.of_nat n) (Z.of_nat n));
    destruct (Z.ltb_spec k (Z.of_nat n)); simpl; split; try done; lia.
Qed.

Lemma combine_None {libm : Libm} (rows : list embedding) (ws : list Z) :
  combine rows ws = Ok None ↔ rows = [].
Proof.
  destruct rows as [|r1 [|r2 rows]]; simpl; split; try done.
  intros H. apply bind_ok in H as (a & _ & H).
  by apply bind_ok in H as (v & _ & ?).
Qed.

Lemma combine_length {libm : Libm} (rs : list embedding) (ws : list Z) v :
  combine rs ws = Ok (Some v) → length v = dim rs.
Proof.
  intros H.
  destruct rs as [|r1 [|r2 rs']] eqn:Er; [done|by injection H as <-|].
  rewrite <- Er in *.
  assert (Hne : rs ≠ []) by (by rewrite Er).
  assert (H' : (average ← weighted_average rs ws;
                v ← normalize average; Ok (Some v)) = Ok (Some v)).
  { rewrite <- H. unfold combine. by rewrite Er. }
  apply bind_ok in H' as (average & Ha & H').
  apply bind_ok in H' as (v' & Hn & [= <-]).
  unfold weighted_average in Ha. apply forM_length in Ha.
  rewrite zip_star_length in Ha by done.
  unfold normalize in Hn.
  apply bind_ok in Hn as (squares & _ & Hn).
  apply bind_ok in Hn as (magnitude & _ & Hn).
  apply forM_length in Hn. lia.
Qed.

Section Subscripts.

Context {libm : Libm}.

Variable num_texts : Z.
Variable tokens : list chunk.
Variable batched_embeddings : list embedding.
Variable indices : list Z.
Variable skip_empty : bool.

Local Abbreviation n := (Z.to_nat num_texts).
Local Abbreviation members :=
  (members num_texts batched_embeddings indices skip_empty).
Local Abbreviation rows :=
  (rows num_texts batched_embeddings indices skip_empty).
Local Abbreviation weights :=
  (weights num_texts tokens batched_embeddings indices skip_empty).

(** X4.  The first loop raises [IndexError] when chunk [j] has no embedding,
    or is kept and has an origin index outside [-num_texts, num_texts)
    or no entry in [tokens].  In particular fewer embeddings than origin
    indices make the call raise. *)
Theorem process_index_error (j : nat) :
  (j < length indices)%nat →
  (batched_embeddings !! j = None
   ∨ ∃ e, batched_embeddings !! j = Some e
          ∧ skipped skip_empty e = false
          ∧ ((∃ k, indices !! j = Some k
                   ∧ ¬ (- Z.of_nat n ≤ k < Z.of_nat n))
             ∨ tokens !! j = None)) →
  _process_batched_chunked_embeddings
    num_texts tokens batched_embeddings indices skip_empty
  = Raise IndexError.
Proof.
  intros Hj Hbad. rewrite process_spec, decide_False; [done|].
  unfold well_formed. rewrite Forall_forall. intros Hwf.
  specialize (Hwf j). unfold step_ok in Hwf.
  destruct Hbad as [Hb|(e & Hb & Hs & Hbad)]; rewrite Hb in Hwf.
  - apply Hwf, elem_of_seq. lia.
  - destruct Hwf as [?|[[p Hp] [t Ht]]]; [apply elem_of_seq; lia|congruence|].
    destruct Hbad as [(k & Hk & Hr)|Hn]; [|congruence].
    rewrite Hk in Hp. simpl in Hp.
    apply position_None in Hr. congruence.
Qed.

Lemma sentinel_and_dimension out (p : nat) :
  _process_batched_chunked_embeddings
    num_texts tokens batched_embeddings indices skip_empty = Ok out →
  (p < n)%nat →
  (out !! p = Some None ↔ members p = [])
  ∧ ∀ v, out !! p = Some (Some v) → length v = dim (rows p).
Proof.
  intros (_ & _ & Hall)%process_ok Hp.
  destruct (Hall p Hp) as (o & Hc & Ho). rewrite Ho. split.
  - split.
    + intros [= ->]. apply combine_None in Hc.
      by apply fmap_nil_inv in Hc.
    + intros Hm. unfold rows in Hc. rewrite Hm in Hc.
      by injection Hc as <-.
  - intros v [= ->]. by eapply combine_length.
Qed.

(** X5.  The item of a text is the sentinel [None] exactly when no chunk is
    filed under the text; the item of any other text has as many
    components as the shortest of its chunk embeddings. *)
Theorem process_sentinel_and_dimension out (p : nat) :
  _process_batched_chunked_embeddings
    num_texts tokens batched_embeddings indices skip_empty = Ok out →
  (p < n)%nat →
  (out !! p = Some None ↔ members p = [])
  ∧ ∀ v, out !! p = Some (Some v) → length v = dim (rows p).
Proof. apply sentinel_and_dimension. Qed.

End Subscripts.

Section NoRequest.

Context {libm : Libm}.

Variable self : CompressaEmbeddings.
Variable create_ : embed_input → M embed_input embed_response.

Lemma fill_empty_no_sentinel embeddings log :
  Forall is_Some embeddings →
  fill_empty create_ embeddings None log
  = (Ok (default [] <$> embeddings), log).
Proof.
  induction 1 as [|o l [e ->] _ IH]; cbn [fill_empty]; [done|].
  by rewrite bind_run, IH.
Qed.

(** X6.  Where every text has a chunk filed under it, the aggregation step
    issues no request, whether it returns or raises. *)
Theorem aggregate_no_request
    (texts : list string) tokens batched_embeddings indices log r log' :
  (∀ p, (p < length texts)%nat →
        members (len texts) batched_embeddings indices (skip_empty self) p
        ≠ []) →
  aggregate self create_ (len texts) tokens batched_embeddings indices log
  = (r, log') →
  log' = log.
Proof.
  intros Hm. rewrite aggregate_run.
  destruct (_process_batched_chunked_embeddings _ _ _ _ _)
    as [embeddings|e] eqn:Ep; [|by intros [= _ <-]].
  rewrite fill_empty_no_sentinel; [by intros [= _ <-]|].
  apply Forall_lookup. intros p o Ho.
  pose proof (process_ok _ _ _ _ _ _ Ep) as (_ & Hlen & _).
  assert (Hp : (p < Z.to_nat (len texts))%nat).
  { apply lookup_lt_Some in Ho. lia. }
  destruct (sentinel_and_dimension
              (len texts) tokens batched_embeddings indices
              (skip_empty self) embeddings p Ep Hp) as [Hs _].
  destruct o as [v|]; [done|]. apply Hs in Ho.
  exfalso. apply (Hm p); [|done]. unfold len in Hp. lia.
Qed.

End NoRequest.

(* ================================================================== *)
(** ** The requests of an embedding call                               *)
(* ================================================================== *)

Lemma bind_raise {A B} (m : result A) (k : A → result B) (e : exn) :
  m ≫= k = Raise e → m = Raise e ∨ ∃ a, m = Ok a ∧ k a = Raise e.
Proof. destruct m as [a|e']; simpl; [by eauto|]. intros [= ->]. by left. Qed.

Lemma forM_raise_inv {A B} (f : A → result B) (l : list A) (e : exn) :
  forM f l = Raise e → ∃ x, x ∈ l ∧ f x = Raise e.
Proof.
  induction l as [|x l IH]; [done|]. cbn [forM]. intros H.
  apply bind_raise in H as [H|(y & _ & H)].
  { exists x. split; [left|done]. }
  apply bind_raise in H as [H|(ys & _ & H)]; [|done].
  destruct (IH H) as (x' & ? & ?). exists x'. split; [by right|done].
Qed.

Section Requests2.

Variable cl : list embed_input → embed_input → result embed_response.

(** The batch loop, when it comes to its end. *)
Lemma fetch_loop (tokens : list chunk) (cs : Z) (js : list Z) acc log be log' :
  foldS (λ batched_embeddings i,
           response ← create cl (InputBatch (slice tokens i (i + cs)));
           mret (batched_embeddings ++ data response))
        js acc log = (Ok be, log') →
  log' = log ++ ((λ i, InputBatch (slice tokens i (i + cs))) <$> js)
  ∧ ∃ rs,
      be = acc ++ concat (data <$> rs)
      ∧ Forall2 (λ i r, ∃ lg, cl lg (InputBatch (slice tokens i (i + cs)))
                              = Ok r) js rs.
Proof.
  revert acc log. induction js as [|i js IH]; intros acc log; cbn [foldS].
  - intros [= <- <-]. rewrite !app_nil_r. split; [done|].
    exists []. by rewrite app_nil_r.
  - rewrite bind_run, bind_run, create_run.
    destruct (cl log _) as [r|e] eqn:Er; [|done]. rewrite mret_run.
    intros (-> & rs & -> & HF)%IH. split.
    + by rewrite fmap_cons, <- app_assoc.
    + exists (r :: rs). split; [by rewrite <- app_assoc|].
      constructor; eauto.
Qed.

(** The loop of [embed_documents] without the length check, when it
    comes to its end. *)
Lemma unchecked_loop (texts : list string) acc log out log' :
  foldS (λ embeddings text,
           response ← create cl (InputText text);
           mret (embeddings ++ data response))
        texts acc log = (Ok out, log') →
  log' = log ++ (InputText <$> texts)
  ∧ ∃ rs,
      out = acc ++ concat (data <$> rs)
      ∧ length rs = length texts
      ∧ ∀ (i : nat) text, texts !! i = Some text →
          ∃ r, rs !! i = Some r
               ∧ cl (log ++ (InputText <$> take i texts)) (InputText text)
                 = Ok r.
Proof.
  revert acc log.
  induction texts as [|text texts IH]; intros acc log; cbn [foldS].
  - intros [= <- <-]. rewrite !app_nil_r. split; [done|].
    exists []. by rewrite app_nil_r.
  - rewrite bind_run, bind_run, create_run.
    destruct (cl log _) as [r|e] eqn:Er; [|done]. rewrite mret_run.
    intros (-> & rs & -> & Hl & Hall)%IH. split.
    + by rewrite fmap_cons, <- app_assoc.
    + exists (r :: rs). split; [by rewrite <- app_assoc|].
      split; [simpl; lia|]. intros [|i] text' Ht.
      * injection Ht as <-. exists r. simpl. by rewrite app_nil_r.
      * destruct (Hall i text' Ht) as (r' & ? & Hr'). exists r'.
        split; [done|].
        by rewrite firstn_cons, fmap_cons, cons_middle, app_assoc.
Qed.

Lemma answers_length (tokens : list chunk) (cs : Z) (js : list Z)
    (rs : list embed_response) :
  (∀ lg c r, cl lg (InputBatch c) = Ok r → length (data r) = length c) →
  Forall2 (λ i r, ∃ lg, cl lg (InputBatch (slice tokens i (i + cs))) = Ok r)
          js rs →
  length (concat (data <$> rs))
  = length (concat ((λ i, slice tokens i (i + cs)) <$> js)).
Proof.
  intros Hcl. induction 1 as [|i r js rs [lg Hr] _ IH]; [done|].
  rewrite !fmap_cons. cbn [concat]. rewrite !length_app, IH.
  by rewrite (Hcl _ _ _ Hr).
Qed.

End Requests2.

Lemma libm_pow_no_index_error {libm : Libm} (iv iw : float) :
  libm_pow iv iw ≠ Raise IndexError.
Proof.
  unfold libm_pow. destruct (pow iv iw) as [ix []]; repeat case_match; done.
Qed.

Lemma combine_no_index_error {libm : Libm} (rs : list embedding) (ws : list Z) :
  combine rs ws ≠ Raise IndexError.
Proof.
  destruct rs as [|r1 [|r2 rs]]; [done|done|]. unfold combine. intros H.
  apply bind_raise in H as [H|(average & _ & H)].
  { apply forM_raise_inv in H as (col & _ & H). unfold truediv in H.
    by destruct (PrimFloat.eqb _ _). }
  apply bind_raise in H as [H|(v & _ & H)]; [|done].
  unfold normalize in H.
  apply bind_raise in H as [H|(squares & _ & H)].
  { apply forM_raise_inv in H as (x & _ & H). unfold pow_2 in H.
    repeat (destruct (_ : bool) in H; try done).
    by apply libm_pow_no_index_error in H. }
  apply bind_raise in H as [H|(magnitude & _ & H)].
  { unfold pow_half in H.
    repeat (destruct (_ : bool) in H; try done).
    by apply libm_pow_no_index_error in H. }
  apply forM_raise_inv in H as (x & _ & H). unfold truediv in H.
  by destruct (PrimFloat.eqb _ _).
Qed.

Section Protocol.

Context {libm : Libm}.

Variable env : environment.
Variable self : CompressaEmbeddings.

(** X7.  Without the length check, [embed_documents] and [aembed_documents]
    send one request per text, in the order of the texts and with the
    text as input, and return the embeddings of the answers in that
    order. *)
Theorem embed_documents_unchecked
    (async : bool) (texts : list string) log out log' :
  check_embedding_ctx_length self = false →
  (if async then aembed_documents env self texts
   else embed_documents env self texts) log = (Ok out, log') →
  log' = log ++ (InputText <$> texts)
  ∧ ∃ rs,
      out = concat (data <$> rs)
      ∧ length rs = length texts
      ∧ ∀ (i : nat) text, texts !! i = Some text →
          ∃ r, rs !! i = Some r
               ∧ (if async then async_client env else client env)
                   (log ++ (InputText <$> take i texts)) (InputText text)
                 = Ok r.
Proof.
  intros Hc. unfold aembed_documents, embed_documents, embed_unchecked.
  rewrite Hc. simpl negb. cbn iota.
  destruct async; intros H; apply unchecked_loop in H; exact H.
Qed.

(** X8.  A returning length-safe call with a positive batch size has sent
    every chunk once: the inputs of its batch requests put together are
    the chunk list, in order; no batch is empty and none holds more
    chunks than the batch size; after the batches comes at most the one
    empty-string request. *)
Theorem batches_partition_chunks
    (async : bool) (texts : list string) cs log out log' :
  0 < or_int cs (chunk_size self) →
  (if async then _aget_len_safe_embeddings env self texts cs
   else _get_len_safe_embeddings env self texts cs) log = (Ok out, log') →
  ∃ _iter tokens indices batches extra,
    _tokenize env self texts (or_int cs (chunk_size self))
    = Ok (_iter, tokens, indices)
    ∧ log' = log ++ (InputBatch <$> batches) ++ extra
    ∧ concat batches = tokens
    ∧ Forall (λ b, 1 ≤ len b ≤ or_int cs (chunk_size self)) batches
    ∧ (extra = [] ∨ extra = [InputText ""]).
Proof.
  intros Hcs. rewrite len_safe_unfold.
  destruct (_tokenize _ _ _ _) as [[[it tk] ix]|e] eqn:Et; [|done].
  cbn zeta. rewrite bind_run.
  destruct (fetch _ _ _ _ _) as [[be|e] lg] eqn:Ef; [|done].
  unfold fetch in Ef. apply fetch_loop in Ef as (-> & _).
  pose proof (tokenize_iter _ _ _ _ _ _ _ Et) as Hit.
  destruct (windows_partition tk _ it Hcs Hit) as (Hc & Hf & _).
  rewrite aggregate_run.
  destruct (_process_batched_chunked_embeddings _ _ _ _ _)
    as [embeddings|e]; [|done].
  rewrite fill_empty_spec.
  set (ws := (λ i, slice tk i (i + or_int cs (chunk_size self))) <$> it)
    in *.
  assert (Hreq : (λ i, InputBatch
                         (slice tk i (i + or_int cs (chunk_size self))))
                   <$> it = InputBatch <$> ws)
    by (unfold ws; by rewrite <- list_fmap_compose).
  rewrite Hreq. intros H. exists it, tk, ix, ws.
  case_decide.
  - exists []. injection H as _ <-. rewrite app_nil_r. eauto 10.
  - exists [InputText ""].
    assert (log' = (log ++ (InputBatch <$> ws)) ++ [InputText ""]) as ->.
    { by destruct (_ ≫= _); injection H as _ <-. }
    rewrite <- app_assoc. eauto 10.
Qed.

(** X9.  Where the endpoint answers every batch with as many embeddings as
    the batch has chunks, every chunk gets its embedding and the
    aggregation subscripts within bounds: it does not raise
    [IndexError]. *)
Theorem well_sized_answers_in_bounds
    cl (texts : list string) cs _iter tokens indices log
    batched_embeddings log' :
  (∀ lg c r, cl lg (InputBatch c) = Ok r → length (data r) = length c) →
  0 < cs →
  _tokenize env self texts cs = Ok (_iter, tokens, indices) →
  fetch (create cl) tokens cs _iter log = (Ok batched_embeddings, log') →
  length batched_embeddings = length tokens
  ∧ _process_batched_chunked_embeddings
      (len texts) tokens batched_embeddings indices (skip_empty self)
    ≠ Raise IndexError.
Proof.
  intros Hcl Hcs Ht Hf. unfold fetch in Hf.
  apply fetch_loop in Hf as (_ & rs & -> & HF).
  pose proof (tokenize_iter _ _ _ _ _ _ _ Ht) as Hit.
  destruct (windows_partition tokens _ _iter Hcs Hit) as (Hc & _ & _).
  assert (Hlen : length ([] ++ concat (data <$> rs)) = length tokens).
  { simpl. rewrite (answers_length cl tokens cs _iter rs Hcl HF).
    by rewrite Hc. }
  split; [done|].
  destruct (indices_invariant env self _ _ _ _ _ Ht)
    as (Hti & Hrange & _).
  rewrite process_spec. rewrite decide_True.
  - intros H. apply forM_raise_inv in H as (p & _ & H).
    by apply combine_no_index_error in H.
  - apply Forall_forall. intros j Hj%elem_of_seq. unfold step_ok.
    destruct (lookup_lt_is_Some_2 ([] ++ concat (data <$> rs)) j)
      as [e He]; [lia|].
    rewrite He. right.
    destruct (lookup_lt_is_Some_2 indices j) as [k Hk]; [lia|].
    destruct (lookup_lt_is_Some_2 tokens j) as [t Htk]; [lia|].
    rewrite Hk, Htk. split; [|done]. simpl.
    rewrite Forall_forall in Hrange.
    specialize (Hrange k (list_elem_of_lookup_2 _ _ _ Hk)).
    destruct (position (Z.to_nat (len texts)) k) eqn:Hp; [done|].
    apply position_None in Hp. unfold len in *. lia.
Qed.

End Protocol.

Section Edges.

Import Llms.

Variable env : Llms.environment.
Variable self : BaseCompressaLLM.

(** X16.  An object that [validate_environment] lets through has [n] of one
    or more, and when it streams it has [n = 1] and [best_of] of one at
    most; validation changes none of these fields. *)
Theorem validated_bounds self' :
  validate_environment env self = Ok self' →
  n self' = n self
  ∧ best_of self' = best_of self
  ∧ streaming self' = streaming self
  ∧ 1 ≤ n self'
  ∧ (streaming self' = true → n self' = 1 ∧ best_of self' ≤ 1).
Proof.
  unfold validate_environment.
  destruct (Z.ltb_spec (n self) 1); [done|].
  destruct (streaming self) eqn:Hs; simpl.
  - destruct (Z.ltb_spec 1 (n self)); [done|].
    destruct (Z.ltb_spec 1 (best_of self)); [done|].
    intros (key & _ & [= <-])%bind_ok. simpl.
    repeat split; lia.
  - intros (key & _ & [= <-])%bind_ok. simpl.
    repeat split; try done; lia.
Qed.

(** X17.  Without prompts, a returning call, synchronous or asynchronous, has
    sent no request and holds no generations. *)
Theorem generate_no_prompts (async : bool) stop kw log res log' :
  (if async then _agenerate env self [] stop kw
   else _generate env self [] stop kw) log = (Ok res, log') →
  log' = log ∧ generations res = [].
Proof.
  assert (Hsubs : ∀ params params' subs,
             get_sub_prompts self params [] stop = Ok (params', subs) →
             subs = []).
  { intros params params' subs (_ & _ & starts & Hs & ->)%sub_prompts_ok.
    unfold range_step, len in Hs. simpl in Hs.
    destruct (Z.eqb_spec (batch_size self) 0); [done|].
    destruct (Z.ltb_spec (batch_size self) 0); [by injection Hs as <-|].
    rewrite Z.div_small in Hs by lia. by injection Hs as <-. }
  destruct async; unfold _agenerate, _generate; cbn zeta;
    rewrite bind_run, lift_run;
    (destruct (get_sub_prompts _ _ _ _) as [[params subs]|e] eqn:E;
     [|done]);
    apply Hsubs in E as ->; cbn beta iota;
    rewrite bind_run; cbn [foldS]; unfold ret at 1; cbn beta iota;
    rewrite lift_run; intros [= <- <-]; by split.
Qed.

End Edges.

Section Streaming.

Import Llms.

Variable env : Llms.environment.
Variable self : BaseCompressaLLM.

(** The parameters of the streaming requests of one call. *)
Lemma stream_run (prompt : string) stop kw log chunks log' :
  _stream env self prompt stop kw log = (Ok chunks, log') →
  let sparams :=
    match stop with
    | Some s => <["stop" := VStrs s]>
                  (<["stream" := VBool true]> (kw ∪ _invocation_params self))
    | None => <["stream" := VBool true]> (kw ∪ _invocation_params self)
    end in
  log' = log ++ [CreateStream prompt sparams].
Proof.
  unfold _stream, stream_with. cbn zeta. rewrite bind_run, lift_run.
  destruct (get_sub_prompts _ _ _ _) as [[params subs]|e] eqn:E; [|done].
  apply sub_prompts_ok in E as (-> & _ & _).
  cbn beta iota. rewrite bind_run, create_run.
  destruct (client_stream env log _) as [stream|e]; [|done].
  rewrite mret_run. by intros [= _ <-].
Qed.

(** The loop of [_generate] with streaming. *)
Lemma stream_loop params (stop : option (list string)) (kw : kwargs)
    (subs : list (list string)) acc log acc' log' :
  streaming self = true →
  foldS (λ '(choices, token_usage, system_fingerprint) _prompts,
           if streaming self then
             c ← stream_choice env (_stream env self) _prompts stop kw;
             mret (choices ++ [c], token_usage, system_fingerprint)
           else
             response ← create (client env) (Create _prompts params);
             if truthy (error response)
             then lift (Raise (ValueError (default "" (error response))))
             else
               cs ← lift (match Llms.choices response with
                          | Some cs => Ok cs
                          | None => Raise TypeError
                          end);
               token_usage' ←
                 lift (_update_token_usage _keys response token_usage);
               mret (choices ++ cs, token_usage',
                     match system_fingerprint with
                     | Some s => if decide (s = "")
                                 then Llms.system_fingerprint response
                                 else Some s
                     | None => Llms.system_fingerprint response
                     end))
        subs acc log = (Ok acc', log') →
  let sparams :=
    match stop with
    | Some s => <["stop" := VStrs s]>
                  (<["stream" := VBool true]> (kw ∪ _invocation_params self))
    | None => <["stream" := VBool true]> (kw ∪ _invocation_params self)
    end in
  log' = log ++ ((λ p, CreateStream p sparams) <$> concat subs)
  ∧ Forall (λ s, length s = 1%nat) subs
  ∧ length acc'.1.1 = (length acc.1.1 + length subs)%nat.
Proof.
  intros Hs. rewrite Hs. cbn beta iota zeta. revert acc log.
  induction subs as [|s subs IH]; intros [[cs0 tu0] fp0] log; cbn [foldS].
  - intros [= <- <-]. rewrite app_nil_r. simpl. split; [done|].
    split; [done|lia].
  - rewrite bind_run, bind_run. unfold stream_choice at 1.
    destruct (Z.ltb_spec 1 (len s)) as [|Hlen]; [by rewrite lift_run|].
    rewrite bind_run, lift_run.
    destruct s as [|p [|p' s']]; [done| |unfold len in Hlen; simpl in Hlen; lia].
    change (getitem [p] 0) with (Ok p). cbn beta iota. rewrite bind_run.
    destruct (_stream env self p stop kw log) as [[chunks|e] lg] eqn:Er;
      [|done].
    apply stream_run in Er. cbn zeta in Er. subst lg.
    destruct chunks as [|chunk rest]; [by rewrite lift_run|].
    rewrite !mret_run. intros (-> & HF & Hl)%IH. simpl in *. split.
    + by rewrite <- app_assoc.
    + split; [by constructor|]. rewrite length_app in Hl. simpl in Hl. lia.
Qed.

(** X18.  A returning streaming [_generate] with a positive batch size has
    sent exactly one streaming request per prompt, in the order of the
    prompts and all with the same parameters (["stream"] set, the stop
    words added), and holds one list of generations per prompt. *)
Theorem generate_streaming_requests
    (prompts : list string) stop kw log res log' :
  streaming self = true →
  0 < batch_size self →
  _generate env self prompts stop kw log = (Ok res, log') →
  let sparams :=
    match stop with
    | Some s => <["stop" := VStrs s]>
                  (<["stream" := VBool true]> (kw ∪ _invocation_params self))
    | None => <["stream" := VBool true]> (kw ∪ _invocation_params self)
    end in
  log' = log ++ ((λ p, CreateStream p sparams) <$> prompts)
  ∧ length (generations res) = length prompts.
Proof.
  intros Hs Hb. unfold _generate. cbn zeta. rewrite bind_run, lift_run.
  destruct (get_sub_prompts _ _ _ _) as [[params subs]|e] eqn:E; [|done].
  apply sub_prompts_ok in E as (_ & _ & starts & Hst & ->).
  destruct (windows_partition prompts _ starts Hb Hst) as (Hc & _ & _).
  cbn beta iota. rewrite bind_run.
  destruct (foldS _ _ _ _) as [[acc'|e] lg] eqn:Ef; [|done].
  apply stream_loop in Ef as (-> & _ & _); [|done].
  destruct acc' as [[cs tu] fp]. rewrite lift_run. intros [= H <-].
  rewrite Hc. split; [done|].
  unfold create_llm_result in H. cbn zeta in H.
  apply bind_ok in H as (gens & Hg%forM_length & [= <-]).
  cbn [generations]. rewrite Hg. unfold range, len.
  by rewrite length_fmap, length_seq, Nat2Z.id.
Qed.

End Streaming.

(* ================================================================== *)
(** ** Further theorems at the sample configuration                    *)
(* ================================================================== *)

Section MoreWitnesses.

Import Samples.

Local Existing Instance sample_libm.

Local Abbreviation self3 := (sample_embeddings 3 true).

Lemma tokenize_chunks_partition_witness :
  ∃ (m : nat) (slices : list (list Z)),
    concat slices = [98; 99; 100; 101]
    ∧ Forall (λ piece, 1 ≤ len piece ≤ 3) slices
    ∧ len slices = (len [98; 99; 100; 101] + 3 - 1) / 3
    ∧ (∀ q piece, slices !! q = Some piece →
         sample_tokens !! (m + q)%nat = Some (ChunkIds piece)
         ∧ sample_indices !! (m + q)%nat = Some (Z.of_nat 2))
    ∧ (∀ j, sample_indices !! j = Some (Z.of_nat 2) →
         (m ≤ j < m + length slices)%nat).
Proof.
  apply (tokenize_chunks_partition
           sample_env self3 sample_texts 1000 [0] sample_tokens
           sample_indices (λ text, Ok (codes text)) ChunkIds
           2 "bcde" [98; 99; 100; 101]).
  - vm_compute. reflexivity.
  - vm_compute. reflexivity.
  - vm_compute. reflexivity.
  - vm_compute. reflexivity.
  - simpl. lia.
Defined.

Lemma tokenize_indices_invariant_witness :
  length sample_tokens = length sample_indices
  ∧ Forall (λ k, 0 ≤ k < len sample_texts) sample_indices
  ∧ ∀ (i j : nat) a b,
      (i ≤ j)%nat → sample_indices !! i = Some a →
      sample_indices !! j = Some b → a ≤ b.
Proof.
  apply (tokenize_indices_invariant
           sample_env self3 sample_texts 1000 [0] sample_tokens
           sample_indices).
  vm_compute. reflexivity.
Defined.

Lemma tokenize_negative_context_witness :
  @nil chunk = [] ∧ @nil Z = [] ∧ @nil Z = [].
Proof.
  apply (tokenize_negative_context
           sample_env (sample_embeddings (-1) true) sample_texts 1000
           [] [] []).
  - simpl. lia.
  - vm_compute. reflexivity.
Defined.

Lemma process_index_error_witness :
  _process_batched_chunked_embeddings 1 [ChunkIds [1]] [] [0] false
  = Raise IndexError.
Proof.
  apply (process_index_error 1 [ChunkIds [1]] [] [0] false 0).
  - simpl. lia.
  - left. reflexivity.
Defined.

Lemma process_sentinel_and_dimension_witness :
  ([Some [1; 0]%float; None;
    Some [0x1.e5b9d136c6d96p-1; 0x1.43d136248490fp-2]%float] !! 2%nat
   = Some None
   ↔ members 3 sample_batched sample_indices false 2 = [])
  ∧ ∀ v, [Some [1; 0]%float; None;
          Some [0x1.e5b9d136c6d96p-1; 0x1.43d136248490fp-2]%float] !! 2%nat
         = Some (Some v) →
         length v = dim (rows 3 sample_batched sample_indices false 2).
Proof.
  apply (process_sentinel_and_dimension
           3 sample_tokens sample_batched sample_indices false).
  - vm_compute. reflexivity.
  - simpl. lia.
Defined.

Lemma aggregate_no_request_witness : @nil embed_input = [].
Proof.
  apply (aggregate_no_request
           self3 (create (endpoint [1; 0]%float [0; 1]%float))
           ["a"] [ChunkIds [97]] [[1; 0]%float] [0] []
           (Ok [[1; 0]%float]) []).
  - intros p Hp. assert (p = 0%nat) as -> by (simpl in Hp; lia).
    vm_compute. discriminate.
  - vm_compute. reflexivity.
Defined.

Lemma embed_documents_unchecked_witness :
  [InputText "a"; InputText "b"] = [] ++ (InputText <$> ["a"; "b"])
  ∧ ∃ rs,
      [[0; 1]; [0; 1]]%float = concat (data <$> rs)
      ∧ length rs = length ["a"; "b"]
      ∧ ∀ (i : nat) text, ["a"; "b"] !! i = Some text →
          ∃ r, rs !! i = Some r
               ∧ client sample_env ([] ++ (InputText <$> take i ["a"; "b"]))
                        (InputText text) = Ok r.
Proof.
  apply (embed_documents_unchecked
           sample_env (sample_embeddings 3 false) false ["a"; "b"] []
           [[0; 1]; [0; 1]]%float [InputText "a"; InputText "b"]).
  - reflexivity.
  - vm_compute. reflexivity.
Defined.

Lemma batches_partition_chunks_witness :
  ∃ _iter tokens indices batches extra,
    _tokenize sample_env self3 sample_texts
              (or_int None (chunk_size self3))
    = Ok (_iter, tokens, indices)
    ∧ [InputBatch sample_tokens; InputText ""]
      = [] ++ (InputBatch <$> batches) ++ extra
    ∧ concat batches = tokens
    ∧ Forall (λ b, 1 ≤ len b ≤ or_int None (chunk_size self3)) batches
    ∧ (extra = [] ∨ extra = [InputText ""]).
Proof.
  apply (batches_partition_chunks
           sample_env self3 false sample_texts None []
           [[1; 0]; [0; 1]; [1; 0]]%float
           [InputBatch sample_tokens; InputText ""]).
  - reflexivity.
  - vm_compute. reflexivity.
Defined.

Lemma well_sized_answers_in_bounds_witness :
  length [[1; 0]; [1; 0]; [1; 0]]%float = length sample_tokens
  ∧ _process_batched_chunked_embeddings
      (len sample_texts) sample_tokens [[1; 0]; [1; 0]; [1; 0]]%float
      sample_indices (skip_empty self3)
    ≠ Raise IndexError.
Proof.
  apply (well_sized_answers_in_bounds
           sample_env self3 (endpoint [1; 0]%float [0; 1]%float)
           sample_texts 1000 [0] sample_tokens sample_indices []
           [[1; 0]; [1; 0]; [1; 0]]%float [InputBatch sample_tokens]).
  - intros lg c r [= <-]. simpl. by rewrite length_fmap.
  - reflexivity.
  - vm_compute. reflexivity.
  - vm_compute. reflexivity.
Defined.

End MoreWitnesses.

Section CompletionWitnesses.

Import Llms Samples.

Lemma sub_prompts_partition_witness :
  concat [["a"; "b"]; ["c"]] = ["a"; "b"; "c"]
  ∧ Forall (λ s, 1 ≤ len s ≤ batch_size (sample_llm false 2))
           [["a"; "b"]; ["c"]]
  ∧ len [["a"; "b"]; ["c"]]
    = (len ["a"; "b"; "c"] + batch_size (sample_llm false 2) - 1)
      / batch_size (sample_llm false 2)
  ∧ <["stop" := VStrs ["."]]> {["max_tokens" := VInt 256]}
    = <["stop" := VStrs ["."]]> ({["max_tokens" := VInt 256]} : kwargs).
Proof.
  apply (sub_prompts_partition
           (sample_llm false 2) {["max_tokens" := VInt 256]}
           ["a"; "b"; "c"] (Some ["."])
           (<["stop" := VStrs ["."]]> {["max_tokens" := VInt 256]})
           [["a"; "b"]; ["c"]]).
  - reflexivity.
  - vm_compute. reflexivity.
Defined.

Lemma update_token_usage_adds_witness :
  ∃ tu',
    _update_token_usage _keys ok_response {["total_tokens" := 2]} = Ok tu'
    ∧ ∀ k, tu' !! k
           = if decide (k ∈ _keys
                        ∧ is_Some (({["total_tokens" := 5]} : gmap string Z)
                                     !! k))
             then Some (default 0 (({["total_tokens" := 2]} : gmap string Z)
                                     !! k)
                        + default 0 (({["total_tokens" := 5]}
                                      : gmap string Z) !! k))
             else ({["total_tokens" := 2]} : gmap string Z) !! k.
Proof.
  apply (update_token_usage_adds
           _keys ok_response {["total_tokens" := 5]}
           {["total_tokens" := 2]}).
  - apply (bool_decide_unpack _). vm_compute. exact I.
  - reflexivity.
Defined.

Lemma llm_result_groups_witness :
  ∃ res,
    create_llm_result (sample_llm false 20) [sample_choice; sample_choice]
                      ["a"; "b"] ∅ ∅ None = Ok res
    ∧ length (generations res) = length ["a"; "b"]
    ∧ Forall (λ g, len g = 1) (generations res)
    ∧ concat (generations res)
      = (λ c, {| gen_text := text c;
                 gen_info := (finish_reason c, logprobs c) |})
          <$> [sample_choice; sample_choice]
    ∧ token_usage res = ∅.
Proof.
  apply (llm_result_groups
           (sample_llm false 20) [sample_choice; sample_choice]
           ["a"; "b"] ∅ ∅ None 1).
  - reflexivity.
  - lia.
  - reflexivity.
Defined.

Lemma generate_one_request_per_batch_witness :
  is_ok (_generate (sample_llm_env ok_response) (sample_llm false 1)
                   ["a"; "b"] None ∅ []).1 = true
  ∧ match _generate (sample_llm_env ok_response) (sample_llm false 1)
                    ["a"; "b"] None ∅ [] with
    | (Ok res, log') =>
        ∃ params subs,
          get_sub_prompts (sample_llm false 1)
                          (∅ ∪ _invocation_params (sample_llm false 1))
                          ["a"; "b"] None
          = Ok (params, subs)
          ∧ log' = [] ++ ((λ s, Create s params) <$> subs)
          ∧ ∀ (i : nat) s, subs !! i = Some s →
              ∃ r, client (sample_llm_env ok_response)
                          ([] ++ ((λ s, Create s params) <$> take i subs))
                          (Create s params) = Ok r
                   ∧ truthy (error r) = false
                   ∧ is_Some (choices r)
                   ∧ is_Some (usage r)
    | _ => True
    end.
Proof.
  split; [vm_compute; reflexivity|].
  destruct (_generate (sample_llm_env ok_response) (sample_llm false 1)
                      ["a"; "b"] None ∅ []) as [[res|e] log'] eqn:E;
    [|exact I].
  apply (generate_one_request_per_batch
           (sample_llm_env ok_response) (sample_llm false 1)
           ["a"; "b"] None ∅ [] res log'); [reflexivity|exact E].
Defined.

Lemma agenerate_no_system_fingerprint_witness :
  is_ok (_agenerate (sample_llm_env ok_response) (sample_llm false 1)
                    ["a"; "b"] None ∅ []).1 = true
  ∧ match _agenerate (sample_llm_env ok_response) (sample_llm false 1)
                     ["a"; "b"] None ∅ [] with
    | (Ok res, _) => llm_system_fingerprint res = None
    | _ => True
    end.
Proof.
  split; [vm_compute; reflexivity|].
  destruct (_agenerate (sample_llm_env ok_response) (sample_llm false 1)
                       ["a"; "b"] None ∅ []) as [[res|e] log'] eqn:E;
    [|exact I].
  apply (agenerate_no_system_fingerprint
           (sample_llm_env ok_response) (sample_llm false 1)
           ["a"; "b"] None ∅ [] res log' E).
Defined.


Lemma validated_bounds_witness :
  match validate_environment (sample_llm_env ok_response)
                             (sample_llm true 1) with
  | Ok self' =>
      n self' = n (sample_llm true 1)
      ∧ best_of self' = best_of (sample_llm true 1)
      ∧ streaming self' = streaming (sample_llm true 1)
      ∧ 1 ≤ n self'
      ∧ (streaming self' = true → n self' = 1 ∧ best_of self' ≤ 1)
  | Raise _ => False
  end.
Proof.
  destruct (validate_environment (sample_llm_env ok_response)
                                 (sample_llm true 1)) as [self'|e] eqn:E.
  - apply (validated_bounds (sample_llm_env ok_response)
                            (sample_llm true 1) self' E).
  - vm_compute in E. discriminate.
Defined.

Lemma generate_no_prompts_witness :
  (is_ok (_generate (sample_llm_env ok_response) (sample_llm false 1)
                    [] None {["n" := VNone]} []).1 = true
   ∧ match _generate (sample_llm_env ok_response) (sample_llm false 1)
                     [] None {["n" := VNone]} [] with
     | (Ok res, log') => log' = [] ∧ generations res = []
     | _ => True
     end)
  ∧ (is_ok (_agenerate (sample_llm_env ok_response) (sample_llm false 1)
                       [] None {["n" := VFloat 1.5]} []).1 = true
     ∧ match _agenerate (sample_llm_env ok_response) (sample_llm false 1)
                        [] None {["n" := VFloat 1.5]} [] with
       | (Ok res, log') => log' = [] ∧ generations res = []
       | _ => True
       end).
Proof.
  split; (split; [vm_compute; reflexivity|]).
  - destruct (_generate (sample_llm_env ok_response) (sample_llm false 1)
                        [] None {["n" := VNone]} [])
      as [[res|e] log'] eqn:E; [|exact I].
    apply (generate_no_prompts
             (sample_llm_env ok_response) (sample_llm false 1)
             false None {["n" := VNone]} [] res log' E).
  - destruct (_agenerate (sample_llm_env ok_response) (sample_llm false 1)
                         [] None {["n" := VFloat 1.5]} [])
      as [[res|e] log'] eqn:E; [|exact I].
    apply (generate_no_prompts
             (sample_llm_env ok_response) (sample_llm false 1)
             true None {["n" := VFloat 1.5]} [] res log' E).
Defined.

Lemma generate_streaming_requests_witness :
  is_ok (_generate (sample_llm_env ok_response) (sample_llm true 1)
                   ["a"; "b"] None ∅ []).1 = true
  ∧ match _generate (sample_llm_env ok_response) (sample_llm true 1)
                    ["a"; "b"] None ∅ [] with
    | (Ok res, log') =>
        log' = [] ++ ((λ p, CreateStream p
                              (<["stream" := VBool true]>
                                 (∅ ∪ _invocation_params (sample_llm true 1))))
                        <$> ["a"; "b"])
        ∧ length (generations res) = length ["a"; "b"]
    | _ => True
    end.
Proof.
  split; [vm_compute; reflexivity|].
  destruct (_generate (sample_llm_env ok_response) (sample_llm true 1)
                      ["a"; "b"] None ∅ []) as [[res|e] log'] eqn:E;
    [|exact I].
  apply (generate_streaming_requests
           (sample_llm_env ok_response) (sample_llm true 1)
           ["a"; "b"] None ∅ [] res log'); [reflexivity|reflexivity|exact E].
Defined.

End CompletionWitnesses.
